(** * examples/traffic_analysis/script.py: the per-frame pipeline and its two sinks

    A shallow embedding of [process_video] and [process_frame].  Numpy
    arrays are buffers in an object store, the collaborating objects
    (detector, tracker, annotator, sink, display) act on an explicit
    world, and a raised exception is a result that skips the rest of
    the computation but keeps the effects made so far. *)

From Stdlib Require Import ZArith QArith Lia Ascii Sorted.
From stdpp Require Import base list strings pretty.

Local Open Scope Z_scope.
Local Open Scope string_scope.
Local Open Scope list_scope.

(** ** Exceptions and fallible computations *)

Inductive exn : Type :=
  | SourceUnreadable
  | DetectionFailure
  | SinkConfigurationError
  | IndexError
  | RuntimeError (msg : string).

Inductive result (A : Type) : Type :=
  | Ok (a : A)
  | Raise (e : exn).
Arguments Ok {A} a.
Arguments Raise {A} e.

Definition is_raise {A} (r : result A) : bool :=
  match r with Ok _ => false | Raise _ => true end.

Definition rbind {A B} (r : result A) (k : A → result B) : result B :=
  match r with Ok a => k a | Raise e => Raise e end.

Fixpoint rmap {A B} (f : A → result B) (l : list A) : result (list B) :=
  match l with
  | [] => Ok []
  | a :: l' => rbind (f a) (λ b, rbind (rmap f l') (λ bs, Ok (b :: bs)))
  end.

(** ** Data model *)

(** A frame is an [np.ndarray] of dtype uint8: the flattened samples. *)
Abbreviation pixels := (list Byte.byte).

(** Objects of the Python heap are addressed by their allocation rank. *)
Definition loc := nat.

Record Box : Type := { x1 : Q; y1 : Q; x2 : Q; y2 : Q }.

(** One row of the detector's raw prediction. *)
Record Candidate : Type := { c_box : Box; c_conf : Q; c_cls : Z }.

(** Modelled from the spec: [sv.Detections], an ordered collection of
    detections (section 3), held as parallel columns of which the
    optional ones may be [None]; [len(detections)] is the length of
    [xyxy]. *)
Record Detections : Type := {
  xyxy : list Box;
  mask : option (list (list bool));
  confidence : option (list Q);
  class_id : option (list Z);
  tracker_id : option (list Z);
}.

Definition len (d : Detections) : nat := length (xyxy d).

(** The assignment [detections.class_id = v] replaces one column. *)
Definition set_class_id (d : Detections) (v : list Z) : Detections :=
  {| xyxy := xyxy d; mask := mask d; confidence := confidence d;
     class_id := Some v; tracker_id := tracker_id d |}.

(** [np.zeros(n)]: n zeros (float64 0.0, numerically the integer 0). *)
Definition np_zeros (n : nat) : list Z := replicate n 0.

(** The tuple [Detections.__iter__] yields for one index. *)
Definition row : Type :=
  (Box * option (list bool) * option Q * option Z * option Z)%type.

(** [col[i] if col is not None else None]; indexing out of range raises. *)
Definition column_at {A} (col : option (list A)) (i : nat) : result (option A) :=
  match col with
  | None => Ok None
  | Some l => match l !! i with
              | Some a => Ok (Some a)
              | None => Raise IndexError
              end
  end.

Definition row_at (d : Detections) (i : nat) : result row :=
  rbind (column_at (Some (xyxy d)) i) (λ b,
  rbind (column_at (mask d) i) (λ m,
  rbind (column_at (confidence d) i) (λ c,
  rbind (column_at (class_id d) i) (λ k,
  rbind (column_at (tracker_id d) i) (λ t,
  match b with
  | Some b => Ok (b, m, c, k, t)
  | None => Raise IndexError
  end))))).

(** Modelled from the spec: [Detections.__iter__], which reads the
    detections in their order (section 3) as the tuples line 58
    unpacks: the rows for [i in range(len(self.xyxy))]. *)
Definition Detections_iter (d : Detections) : result (list row) :=
  rmap (row_at d) (seq 0 (len d)).

(** [str(x)] of an optional integer, as an f-string field formats it. *)
Definition py_str (t : option Z) : string :=
  match t with
  | Some z => pretty z
  | None => "None"
  end.

(** [[f"#{tracker_id}" for _, _, confidence, class_id, tracker_id in detections]] *)
Definition make_labels (d : Detections) : result (list string) :=
  rbind (Detections_iter d) (λ rows,
    Ok ((λ r : row, let '(_, _, _, _, tracker_id) := r in
                    "#" +:+ py_str tracker_id) <$> rows)).

(** A column is aligned when it is absent or as long as [xyxy]. *)
Definition aligned {A} (n : nat) (col : option (list A)) : Prop :=
  match col with None => True | Some l => length l = n end.

Definition well_formed (d : Detections) : Prop :=
  aligned (len d) (mask d) ∧ aligned (len d) (confidence d) ∧
  aligned (len d) (class_id d) ∧ aligned (len d) (tracker_id d).

(** The track identifier of the detection at index [i]. *)
Definition tracker_id_at (d : Detections) (i : nat) : option Z :=
  match tracker_id d with None => None | Some l => l !! i end.

Definition class_id_at (d : Detections) (i : nat) : option Z :=
  match class_id d with None => None | Some l => l !! i end.

(** ** The detector *)

(** What [model(frame, ...)[0]] returns: the surviving prediction rows. *)
Abbreviation Results := (list Candidate).

(** Modelled from the spec: [sv.Detections.from_ultralytics]
    normalizes the result into a detection set (section 2): its boxes,
    scores and classes become the columns; a detection model has no
    masks and the result carries no track identifiers. *)
Definition from_ultralytics (r : Results) : Detections :=
  {| xyxy := c_box <$> r; mask := None;
     confidence := Some (c_conf <$> r);
     class_id := Some (c_cls <$> r);
     tracker_id := None |}.

Definition Qlt_bool (a b : Q) : bool := negb (Qle_bool b a).

Definition Qmax0 (a : Q) : Q := if Qle_bool 0 a then a else 0%Q.
Definition Qmin2 (a b : Q) : Q := if Qle_bool a b then a else b.
Definition Qmax2 (a b : Q) : Q := if Qle_bool a b then b else a.

Definition area (b : Box) : Q :=
  (Qmax0 (x2 b - x1 b) * Qmax0 (y2 b - y1 b))%Q.

Definition intersection (a b : Box) : Q :=
  (Qmax0 (Qmin2 (x2 a) (x2 b) - Qmax2 (x1 a) (x1 b)) *
   Qmax0 (Qmin2 (y2 a) (y2 b) - Qmax2 (y1 a) (y1 b)))%Q.

(** Intersection over union of two boxes. *)
Definition box_iou (a b : Box) : Q :=
  (intersection a b / (area a + area b - intersection a b))%Q.

(** Modelled from the spec: the detection model behind [model(frame,
    conf=, iou=)] (section 4.2).  Detections below the confidence
    threshold are discarded. *)
Definition confident (conf : Q) (c : Candidate) : bool :=
  Qle_bool conf (c_conf c).

(** Modelled from the spec: two boxes of the same class whose pairwise
    overlap exceeds the threshold compete (section 4.2). *)
Definition overlaps (iou : Q) (c k : Candidate) : bool :=
  (c_cls c =? c_cls k)%Z && Qlt_bool iou (box_iou (c_box c) (c_box k)).

(** Modelled from the spec: the higher-confidence box comes first
    (section 4.2): candidates by decreasing score, equal scores in
    their given order. *)
Fixpoint insert_by_conf (c : Candidate) (l : list Candidate) : list Candidate :=
  match l with
  | [] => [c]
  | d :: l' => if Qlt_bool (c_conf c) (c_conf d)
               then d :: insert_by_conf c l'
               else c :: l
  end.

Definition sort_by_conf (l : list Candidate) : list Candidate :=
  foldr insert_by_conf [] l.

(** Modelled from the spec: overlap suppression keeps the
    higher-confidence box (section 4.2): a candidate survives unless a
    box already kept overlaps it beyond the threshold. *)
Fixpoint suppress (iou : Q) (kept l : list Candidate) : list Candidate :=
  match l with
  | [] => []
  | c :: l' => if existsb (overlaps iou c) kept
               then suppress iou kept l'
               else c :: suppress iou (c :: kept) l'
  end.

(** Modelled from the spec: [detect(frame, confidence_threshold,
    iou_threshold)] on the raw candidates of a frame (section 4.2). *)
Definition predict (raw : list Candidate) (conf iou : Q) : Results :=
  suppress iou [] (sort_by_conf (List.filter (confident conf) raw)).

(** ** The tracker *)

Record Track : Type := { track_id : Z; track_box : Box; unmatched : nat }.

(** Modelled from the spec: the state of [sv.ByteTrack] (section 4.3),
    the live tracks and the identifier counter. *)
Record ByteTrack : Type := { tracks : list Track; id_counter : Z }.

(** Modelled from the spec: the initial state (section 4.3), no track
    and the counter at its start value. *)
Definition ByteTrack_init : ByteTrack := {| tracks := []; id_counter := 1 |}.

(** Modelled from the spec: the association heuristic and the
    track-lifecycle policy are external to the pipeline (section 1). *)
Class Heuristics : Type := {
  associate : list Track → Box → option Z;
  admits : Box → option Q → bool;
  max_lost : nat;
}.

Definition is_live (ts : list Track) (id : Z) : bool :=
  existsb (λ t, (track_id t =? id)%Z) ts.

Definition age (t : Track) : Track :=
  {| track_id := track_id t; track_box := track_box t;
     unmatched := S (unmatched t) |}.

Definition refresh (id : Z) (b : Box) (t : Track) : Track :=
  if (track_id t =? id)%Z
  then {| track_id := id; track_box := b; unmatched := 0 |}
  else t.

Definition expired `{Heuristics} (t : Track) : bool :=
  Nat.ltb max_lost (unmatched t).

(** Modelled from the spec: one detection is associated with a live
    track, or spawns a track with a freshly allocated identifier, or
    cannot be paired with any track (sections 3 and 4.3). *)
Definition assign_one `{Heuristics} (s : ByteTrack) (b : Box) (c : option Q)
    : option Z * ByteTrack :=
  match associate (tracks s) b with
  | Some id =>
      if is_live (tracks s) id
      then (Some id, {| tracks := refresh id b <$> tracks s;
                        id_counter := id_counter s |})
      else (None, s)
  | None =>
      if admits b c
      then (Some (id_counter s),
            {| tracks := tracks s ++
                 [{| track_id := id_counter s; track_box := b; unmatched := 0 |}];
               id_counter := id_counter s + 1 |})
      else (None, s)
  end.

Fixpoint assign_all `{Heuristics} (s : ByteTrack) (d : Detections) (i n : nat)
    : list (option Z) * ByteTrack :=
  match n with
  | O => ([], s)
  | S n' =>
      match xyxy d !! i with
      | None => ([], s)
      | Some b =>
          let '(t, s1) := assign_one s b
                            (match confidence d with
                             | Some l => l !! i | None => None end) in
          let '(ts, s2) := assign_all s1 d (S i) n' in
          (t :: ts, s2)
      end
  end.

(** Modelled from the spec: the output holds only the detections
    paired with a track identifier (section 4.3): the entries of a
    column whose detection got one. *)
Fixpoint pick {A} (ids : list (option Z)) (col : list A) : list A :=
  match ids, col with
  | Some _ :: ids', a :: col' => a :: pick ids' col'
  | None :: ids', _ :: col' => pick ids' col'
  | _, _ => []
  end.

(** Modelled from the spec: [update_with_detections] (section 4.3).
    All tracks age, each incoming detection is assigned in turn, tracks
    unmatched for too long are retired, and the output holds only the
    detections paired with a track identifier in this call. *)
Definition update_with_detections `{Heuristics} (s : ByteTrack) (d : Detections)
    : Detections * ByteTrack :=
  let aged := {| tracks := age <$> tracks s; id_counter := id_counter s |} in
  let '(ids, s1) := assign_all aged d 0 (len d) in
  ({| xyxy := pick ids (xyxy d);
      mask := pick ids <$> mask d;
      confidence := pick ids <$> confidence d;
      class_id := pick ids <$> class_id d;
      tracker_id := Some (omap id ids) |},
   {| tracks := List.filter (λ t, negb (expired t)) (tracks s1);
      id_counter := id_counter s1 |}).

(** ** The world the pipeline runs in *)

(** [sv.VideoInfo]: the static metadata of a video. *)
Record VideoInfo : Type := {
  width : Z; height : Z; fps : Z; total_frames : nat;
}.

Record Video : Type := { info : VideoInfo; frames : list pixels }.

(** [sv.VideoSink]: the writer bound to a target path. *)
Record VideoSink : Type := {
  target_path : string;
  sink_info : VideoInfo;
  written : list pixels;
  released : bool;
}.

(** The calls the pipeline makes on its collaborators. *)
Inductive call : Type :=
  | CYolo | CByteTrack | CBoxAnnotator | CFrameGenerator | CVideoInfo
  | CSinkEnter | CSinkExit
  | CNext | CPredict | CFromUltralytics | CUpdate | CAnnotate
  | CWriteFrame | CImshow | CWaitKey (delay : Z) | CDestroyAllWindows.

Global Instance call_eq_dec : EqDecision call.
Proof. solve_decision. Defined.

(** A call, with the rank of the frame it is made for. *)
Definition event : Type := (call * nat)%type.

Record World : Type := {
  heap : list pixels;        (* numpy buffers, by allocation rank *)
  yielded : nat;             (* frames the generator has yielded *)
  trace : list event;        (* calls made so far, oldest first *)
  tracker : ByteTrack;       (* the state of the sv.ByteTrack object *)
  sink : option VideoSink;   (* the video writer, once acquired *)
  windows : list string;     (* the display windows that are open *)
  shown : list pixels;       (* what was handed to cv2.imshow *)
  tracked : list Detections; (* what the tracker was given, call by call *)
  annotated : list (loc * Detections * list string);
                             (* what the annotator was given *)
}.

Definition init_world : World :=
  {| heap := []; yielded := 0; trace := []; tracker := ByteTrack_init;
     sink := None; windows := []; shown := []; tracked := [];
     annotated := [] |}.

Definition set_heap (h : list pixels) (w : World) : World :=
  {| heap := h; yielded := yielded w; trace := trace w; tracker := tracker w;
     sink := sink w; windows := windows w; shown := shown w;
     tracked := tracked w; annotated := annotated w |}.

Definition set_yielded (n : nat) (w : World) : World :=
  {| heap := heap w; yielded := n; trace := trace w; tracker := tracker w;
     sink := sink w; windows := windows w; shown := shown w;
     tracked := tracked w; annotated := annotated w |}.

Definition log (e : event) (w : World) : World :=
  {| heap := heap w; yielded := yielded w; trace := trace w ++ [e];
     tracker := tracker w; sink := sink w; windows := windows w;
     shown := shown w; tracked := tracked w; annotated := annotated w |}.

Definition set_tracker (t : ByteTrack) (w : World) : World :=
  {| heap := heap w; yielded := yielded w; trace := trace w; tracker := t;
     sink := sink w; windows := windows w; shown := shown w;
     tracked := tracked w; annotated := annotated w |}.

Definition set_sink (s : option VideoSink) (w : World) : World :=
  {| heap := heap w; yielded := yielded w; trace := trace w;
     tracker := tracker w; sink := s; windows := windows w; shown := shown w;
     tracked := tracked w; annotated := annotated w |}.

Definition set_display (ws : list string) (sh : list pixels) (w : World) : World :=
  {| heap := heap w; yielded := yielded w; trace := trace w;
     tracker := tracker w; sink := sink w; windows := ws; shown := sh;
     tracked := tracked w; annotated := annotated w |}.

Definition note_tracked (d : Detections) (w : World) : World :=
  {| heap := heap w; yielded := yielded w; trace := trace w;
     tracker := tracker w; sink := sink w; windows := windows w;
     shown := shown w; tracked := tracked w ++ [d]; annotated := annotated w |}.

Definition note_annotated (a : loc * Detections * list string) (w : World) : World :=
  {| heap := heap w; yielded := yielded w; trace := trace w;
     tracker := tracker w; sink := sink w; windows := windows w;
     shown := shown w; tracked := tracked w; annotated := annotated w ++ [a] |}.

(** What the pipeline cannot decide: which calls fail, what the network
    predicts, what the annotator paints, which files exist and which
    keys are pressed. *)
Class Collaborators : Type := {
  heuristics :: Heuristics;
  faults : call → nat → option exn;
  network : string → pixels → list Candidate;
  draw : pixels → Detections → list string → pixels;
  video_file : string → option Video;
  keyboard : nat → Z;
}.

(** ** Computations: a world, and a value or a raised exception *)

Definition M (A : Type) : Type := World → result A * World.

Definition ret {A} (a : A) : M A := λ w, (Ok a, w).

Definition bind {A B} (m : M A) (k : A → M B) : M B :=
  λ w, match m w with
       | (Ok a, w') => k a w'
       | (Raise e, w') => (Raise e, w')
       end.

Global Instance M_ret : MRet M := @ret.
Global Instance M_bind : MBind M := λ A B k m, bind m k.

Definition raise {A} (e : exn) : M A := λ w, (Raise e, w).
Definition lift {A} (r : result A) : M A := λ w, (r, w).
Definition gets {A} (f : World → A) : M A := λ w, (Ok (f w), w).
Definition modify (f : World → World) : M unit := λ w, (Ok tt, f w).

(** The rank of the frame being processed. *)
Definition current (w : World) : nat := pred (yielded w).

(** A call on a collaborator: it is recorded, and may raise. *)
Definition invoke `{Collaborators} (c : call) (i : nat) : M unit :=
  λ w, (match faults c i with Some e => Raise e | None => Ok tt end,
        log (c, i) w).

Definition invoke_here `{Collaborators} (c : call) : M unit :=
  i ← gets current; invoke c i.

Definition read (l : loc) : M pixels :=
  gets (λ w, default [] (heap w !! l)).

Definition alloc (p : pixels) : M loc :=
  l ← gets (λ w, length (heap w));
  modify (λ w, set_heap (heap w ++ [p]) w);;
  mret l.

(** [with enter as r: body]: [__exit__] runs on every way out of the
    body once [__enter__] has returned, and as it returns [None] the
    exception of the body is raised again. *)
Definition with_ {R A} (enter : M R) (exit : R → M unit) (body : R → M A) : M A :=
  λ w, match enter w with
       | (Raise e, w1) => (Raise e, w1)
       | (Ok r, w1) =>
           match body r w1 with
           | (Ok a, w2) =>
               match exit r w2 with
               | (Ok _, w3) => (Ok a, w3)
               | (Raise e', w3) => (Raise e', w3)
               end
           | (Raise e, w2) =>
               match exit r w2 with
               | (Ok _, w3) => (Raise e, w3)
               | (Raise e', w3) => (Raise e', w3)
               end
           end
       end.

Inductive ctl : Type := Continue | Break.

(** [next(frame_generator)]: the call to the decoder, then a fresh
    array for the decoded frame. *)
Definition next_frame `{Collaborators} (f : pixels) : M loc :=
  i ← gets yielded;
  invoke CNext i;;
  frame ← alloc f;
  modify (λ w, set_yielded (S i) w);;
  mret frame.

(** [for frame in frame_generator: body], [g] being what the generator
    has left to yield; the last call finds it exhausted. *)
Fixpoint for_frames `{Collaborators} (g : list pixels) (body : loc → M ctl) : M unit :=
  match g with
  | [] => i ← gets yielded; invoke CNext i
  | f :: g' =>
      frame ← next_frame f;
      c ← body frame;
      match c with
      | Break => mret tt
      | Continue => for_frames g' body
      end
  end.

(** ** The collaborators' calls *)

(** [YOLO(source_weights_path)]: the model is known by its weights. *)
Definition YOLO `{Collaborators} (source_weights_path : string) : M string :=
  invoke CYolo 0;; mret source_weights_path.

(** [sv.ByteTrack()]: a tracker in its initial state. *)
Definition ByteTrack_new `{Collaborators} : M unit :=
  invoke CByteTrack 0;; modify (set_tracker ByteTrack_init).

Definition BoxAnnotator_new `{Collaborators} : M unit :=
  invoke CBoxAnnotator 0.

(** [sv.get_video_frames_generator(source_path=...)] *)
Definition get_video_frames_generator `{Collaborators} (source_path : string)
    : M (list pixels) :=
  invoke CFrameGenerator 0;;
  mret (match video_file source_path with Some v => frames v | None => [] end).

(** [sv.VideoInfo.from_video_path(video_path=...)] *)
Definition VideoInfo_from_video_path `{Collaborators} (video_path : string)
    : M VideoInfo :=
  invoke CVideoInfo 0;;
  match video_file video_path with
  | Some v => mret (info v)
  | None => raise SourceUnreadable
  end.

(** [model(frame, verbose=False, conf=..., iou=...)[0]] *)
Definition model_call `{Collaborators} (model : string) (frame : loc)
    (conf iou : Q) : M Results :=
  invoke_here CPredict;;
  px ← read frame;
  mret (predict (network model px) conf iou).

Definition Detections_from_ultralytics `{Collaborators} (r : Results) : M Detections :=
  invoke_here CFromUltralytics;; mret (from_ultralytics r).

(** [tracker.update_with_detections(detections)] *)
Definition tracker_update `{Collaborators} (tracker_ : unit) (d : Detections)
    : M Detections :=
  modify (note_tracked d);;
  invoke_here CUpdate;;
  s ← gets tracker;
  let '(out, s') := update_with_detections s d in
  modify (set_tracker s');;
  mret out.

(** [frame.copy()]: a fresh array with the same samples. *)
Definition ndarray_copy (frame : loc) : M loc :=
  px ← read frame; alloc px.

(** Modelled from the spec: [box_annotator.annotate(scene, detections,
    labels)] paints the boxes and labels onto the scene it is given and
    returns that scene (section 4.4). *)
Definition annotate `{Collaborators} (box_annotator : unit) (scene : loc)
    (detections : Detections) (labels : list string) : M loc :=
  modify (note_annotated (scene, detections, labels));;
  invoke_here CAnnotate;;
  px ← read scene;
  modify (λ w, set_heap (<[scene := draw px detections labels]> (heap w)) w);;
  mret scene.

(** [sv.VideoSink(target_path, video_info).__enter__()] *)
Definition VideoSink_enter `{Collaborators} (target : string) (vi : VideoInfo)
    : M unit :=
  invoke_here CSinkEnter;;
  modify (set_sink (Some {| target_path := target; sink_info := vi;
                            written := []; released := false |})).

Definition write_frame `{Collaborators} (sink_ : unit) (frame : loc) : M unit :=
  invoke_here CWriteFrame;;
  px ← read frame;
  modify (λ w, set_sink
    ((λ s, {| target_path := target_path s; sink_info := sink_info s;
              written := written s ++ [px]; released := released s |})
     <$> sink w) w).

(** Modelled from the spec: [VideoSink.__exit__] releases the writer
    (section 4.5) and returns [None]. *)
Definition VideoSink_exit `{Collaborators} (sink_ : unit) : M unit :=
  invoke_here CSinkExit;;
  modify (λ w, set_sink
    ((λ s, {| target_path := target_path s; sink_info := sink_info s;
              written := written s; released := true |})
     <$> sink w) w).

(** [cv2.imshow(winname, frame)] *)
Definition imshow `{Collaborators} (winname : string) (frame : loc) : M unit :=
  invoke_here CImshow;;
  px ← read frame;
  modify (λ w, set_display
    (if bool_decide (winname ∈ windows w) then windows w
     else windows w ++ [winname])
    (shown w ++ [px]) w).

(** [cv2.waitKey(delay)]: the key pressed within [delay] milliseconds,
    or -1. *)
Definition waitKey `{Collaborators} (delay : Z) : M Z :=
  invoke_here (CWaitKey delay);;
  i ← gets current;
  mret (keyboard i).

(** [cv2.destroyAllWindows()] *)
Definition destroyAllWindows `{Collaborators} : M unit :=
  invoke_here CDestroyAllWindows;;
  modify (λ w, set_display [] (shown w) w).

(** [ord(c)] *)
Definition ord (c : Ascii.ascii) : Z := Z.of_nat (Ascii.nat_of_ascii c).

(** The truth value of an optional path: [None] and the empty string
    are false. *)
Definition truthy (p : option string) : bool :=
  match p with
  | None => false
  | Some s => negb (bool_decide (s = ""))
  end.

(** ** The program *)

(** [process_frame], lines 42 to 63: detect, force the class, track,
    label, and annotate a copy of the frame. *)
Definition process_frame `{Collaborators} (frame : loc) (model : string)
    (tracker_ box_annotator : unit) (confidence_threshold iou_threshold : Q)
    : M loc :=
  results ← model_call model frame confidence_threshold iou_threshold;
  detections ← Detections_from_ultralytics results;
  let detections := set_class_id detections (np_zeros (len detections)) in
  detections ← tracker_update tracker_ detections;
  labels ← lift (make_labels detections);
  scene ← ndarray_copy frame;
  annotate box_annotator scene detections labels.

(** The body of the loop that writes to the sink. *)
Definition file_body `{Collaborators} (model : string) (tracker_ box_annotator : unit)
    (confidence_threshold iou_threshold : Q) (sink_ : unit) (frame : loc) : M ctl :=
  annotated_frame ← process_frame frame model tracker_ box_annotator
                      confidence_threshold iou_threshold;
  write_frame sink_ annotated_frame;;
  mret Continue.

(** The body of the loop that displays; [break] on the quit key. *)
Definition display_body `{Collaborators} (model : string) (tracker_ box_annotator : unit)
    (confidence_threshold iou_threshold : Q) (frame : loc) : M ctl :=
  annotated_frame ← process_frame frame model tracker_ box_annotator
                      confidence_threshold iou_threshold;
  imshow "Processed Video" annotated_frame;;
  key ← waitKey 1;
  if (Z.land key 255 =? ord "q"%char)%Z then mret Break else mret Continue.

(** [process_video], lines 9 to 39.  [tqdm] only wraps the iteration
    over the generator; the sink is chosen by the truth value of the
    target path. *)
Definition process_video `{Collaborators} (source_weights_path source_video_path : string)
    (target_video_path : option string)
    (confidence_threshold iou_threshold : Q) : M unit :=
  model ← YOLO source_weights_path;
  tracker_ ← ByteTrack_new;
  box_annotator ← BoxAnnotator_new;
  frame_generator ← get_video_frames_generator source_video_path;
  video_info ← VideoInfo_from_video_path source_video_path;
  if truthy target_video_path then
    with_ (VideoSink_enter (default "" target_video_path) video_info)
          VideoSink_exit
          (λ sink_, for_frames frame_generator
                      (file_body model tracker_ box_annotator
                         confidence_threshold iou_threshold sink_))
  else
    for_frames frame_generator
      (display_body model tracker_ box_annotator
         confidence_threshold iou_threshold);;
    destroyAllWindows.

(** ** Concrete collaborators, to run the program on *)

Definition unit_box : Box := {| x1 := 0; y1 := 0; x2 := 1; y2 := 1 |}.
Definition far_box : Box := {| x1 := 5; y1 := 5; x2 := 7; y2 := 7 |}.

Definition demo_raw : list Candidate :=
  [ {| c_box := unit_box; c_conf := 9 # 10; c_cls := 2 |};
    {| c_box := far_box; c_conf := 4 # 10; c_cls := 7 |};
    {| c_box := unit_box; c_conf := 6 # 10; c_cls := 2 |} ].

(** A track follows the boxes that overlap it by more than a half, and
    only a detection scoring a half or more may start a track. *)
Definition demo_heuristics : Heuristics :=
  {| associate := λ ts b,
       track_id <$> List.find (λ t, Qlt_bool (1 # 2) (box_iou (track_box t) b)) ts;
     admits := λ _ c, match c with Some q => Qle_bool (1 # 2) q | None => false end;
     max_lost := 30 |}.

Definition demo_frame : pixels := [Byte.x00; Byte.x01; Byte.x02; Byte.x03].

Definition demo_draw (px : pixels) (d : Detections) (labels : list string) : pixels :=
  replicate (length px) Byte.xff.

Definition demo (plan : call → nat → option exn) (keys : nat → Z)
    (video : list pixels) : Collaborators :=
  {| heuristics := demo_heuristics;
     faults := plan;
     network := λ _ _, demo_raw;
     draw := demo_draw;
     video_file := λ path,
       if bool_decide (path = "in.mp4")
       then Some {| info := {| width := 2; height := 2; fps := 25;
                               total_frames := length video |};
                    frames := video |}
       else None;
     keyboard := keys |}.

Definition no_fault : call → nat → option exn := λ _ _, None.
Definition no_key : nat → Z := λ _, -1.

(** The detector fails on the second frame. *)
Definition fault_on_second : call → nat → option exn :=
  λ c i, match c, i with
         | CPredict, 1%nat => Some DetectionFailure
         | _, _ => None
         end.

(** The key [q] is pressed while the third frame is displayed. *)
Definition q_on_third : nat → Z :=
  λ i, if (i =? 2)%nat then 113 else -1.


(** ** Observations on a run *)

(** Lines 50 to 53 of [process_frame] on the samples of a frame. *)
Definition detected `{Collaborators} (model : string) (px : pixels)
    (conf iou : Q) : Detections :=
  from_ultralytics (predict (network model px) conf iou).

(** The row [Detections.__iter__] yields for a prediction row. *)
Definition row_of (c : Candidate) : row :=
  (c_box c, None, Some (c_conf c), Some (c_cls c), None).

(** Scores never increase along the list. *)
Definition descending (l : list Candidate) : Prop :=
  StronglySorted (λ a b, (c_conf b <= c_conf a)%Q) l.

(** The ranks at which a call was made, in the order of the calls. *)
Definition calls_for (c : call) (tr : list event) : list nat :=
  snd <$> filter (λ e : event, e.1 = c) tr.

(** The call that hands frame [n] to the sink and ends its turn. *)
Definition sink_call (e : event) (n : nat) : Prop :=
  e = (CWriteFrame, n) ∨ e = (CWaitKey 1, n).

(** No frame is fetched ahead: the call made just before the fetch of
    frame [n + 1] is the write or the display poll of frame [n], and
    it returned. *)
Definition no_prefetch `{Collaborators} (tr : list event) : Prop :=
  ∀ pre post n, tr = pre ++ (CNext, S n) :: post →
    ∃ pre' e, pre = pre' ++ [e] ∧ sink_call e n ∧ faults e.1 e.2 = None.

(** The key read at the poll of frame [i] has the low byte of [q]. *)
Definition quits `{Collaborators} (i : nat) : Prop :=
  Z.land (keyboard i) 255 = ord "q"%char.

(** Every class identifier of the set is the value 0. *)
Definition single_class (d : Detections) : Prop :=
  ∀ i, (i < len d)%nat → class_id_at d i = Some 0.

(** The labels are those of the detections, index by index. *)
Definition labels_match (d : Detections) (labels : list string) : Prop :=
  length labels = len d ∧
  ∀ i, (i < len d)%nat →
    labels !! i = Some ("#" +:+ py_str (tracker_id_at d i)).

(** Every detection has an identifier, and its label prints it. *)
Definition labels_identified (d : Detections) (labels : list string) : Prop :=
  ∀ i, (i < len d)%nat →
    ∃ z : Z, tracker_id_at d i = Some z ∧ labels !! i = Some ("#" +:+ pretty z).

(** ** Reasoning on computations *)

(** [wp m Q w]: run from [w], [m] ends in a result and a world that
    satisfy [Q]. *)
Definition wp {A} (m : M A) (Q : result A → World → Prop) (w : World) : Prop :=
  Q (m w).1 (m w).2.

(** The tracker's log has one entry per call, all of a single class. *)
Definition tracked_ok (w : World) : Prop :=
  length (tracked w) = length (calls_for CUpdate (trace w)) ∧
  Forall single_class (tracked w).

(** The annotator's log has one entry per call, and in each the labels
    are those of the detections, which all have an identifier. *)
Definition annotated_ok (w : World) : Prop :=
  length (annotated w) = length (calls_for CAnnotate (trace w)) ∧
  Forall (λ a : loc * Detections * list string,
            labels_match a.1.2 a.2 ∧ labels_identified a.1.2 a.2)
         (annotated w).

(** At the head of the loop: the tracker was updated once for each
    frame yielded so far, in order, no frame was fetched ahead, and
    the last call handed the previous frame to the sink and returned. *)
Definition head_ok `{Collaborators} (sc : call) (w : World) : Prop :=
  calls_for CUpdate (trace w) = seq 0 (yielded w) ∧
  no_prefetch (trace w) ∧
  ∀ n, yielded w = S n →
    ∃ pre, trace w = pre ++ [(sc, n)] ∧ sink_call (sc, n) n ∧ faults sc n = None.

(** When the run ends: the tracker was updated once for each frame
    yielded, in order, but for the last one if the run was aborted
    before the tracker was reached; and no frame was fetched ahead. *)
Definition run_ok `{Collaborators} (r : result unit) (w : World) : Prop :=
  (calls_for CUpdate (trace w) = seq 0 (yielded w) ∨
   (is_raise r = true ∧
    ∃ m, yielded w = S m ∧ calls_for CUpdate (trace w) = seq 0 m)) ∧
  no_prefetch (trace w).

(** The writer is acquired and [__exit__] was not called yet. *)
Definition sink_open (w : World) : Prop :=
  ∃ s, sink w = Some s ∧ released s = false ∧
       calls_for CSinkEnter (trace w) = [0%nat] ∧
       calls_for CSinkExit (trace w) = [].

(** When the run ends: a writer that was acquired saw [__exit__] once,
    as the last call of the run, and is released unless that very call
    raised; and the writer was acquired if [__enter__] returned. *)
Definition release_ok `{Collaborators} (w : World) : Prop :=
  match sink w with
  | Some s =>
      calls_for CSinkEnter (trace w) = [0%nat] ∧
      last (trace w) = Some (CSinkExit, current w) ∧
      calls_for CSinkExit (trace w) = [current w] ∧
      (faults CSinkExit (current w) = None → released s = true)
  | None =>
      calls_for CSinkExit (trace w) = [] ∧
      (calls_for CSinkEnter (trace w) = [] ∨ faults CSinkEnter 0 ≠ None)
  end.

(** No call made so far has raised. *)
Definition all_returned `{Collaborators} (w : World) : Prop :=
  Forall (λ e : event, faults e.1 e.2 = None) (trace w).

(** An exception is not swallowed: a run that returns has seen every
    one of its calls return. *)
Definition propagated `{Collaborators} {A} (r : result A) (w : World) : Prop :=
  is_raise r = true ∨ all_returned w.

(** Every frame yielded so far was fetched, tracked, displayed and
    polled once, in order, and the windows were not destroyed. *)
Definition displayed (w : World) : Prop :=
  calls_for CNext (trace w) = seq 0 (yielded w) ∧
  calls_for CUpdate (trace w) = seq 0 (yielded w) ∧
  calls_for CImshow (trace w) = seq 0 (yielded w) ∧
  calls_for (CWaitKey 1) (trace w) = seq 0 (yielded w) ∧
  calls_for CDestroyAllWindows (trace w) = [].

(** How far a display run went: frames [0] to [m] were asked for, no
    key before frame [m] had the low byte of [q], and the key at frame
    [m] had it unless the [n] frames of the video were exhausted. *)
Definition stopped_at `{Collaborators} (n : nat) (w : World) : Prop :=
  ∃ m, calls_for CNext (trace w) = seq 0 (S m) ∧ (m ≤ n)%nat ∧
       (∀ j, (j < m)%nat → ¬ quits j) ∧ ((m < n)%nat → quits m).

(** A world in which one frame was decoded. *)
Definition demo_world : World :=
  set_yielded 1 (set_heap [demo_frame] init_world).

(** ** Further observations on a run *)

(** Nothing was displayed: no window call was made, no window is open
    and nothing was shown. *)
Definition never_displayed (w : World) : Prop :=
  calls_for CImshow (trace w) = [] ∧
  (∀ d, calls_for (CWaitKey d) (trace w) = []) ∧
  calls_for CDestroyAllWindows (trace w) = [] ∧
  windows w = [] ∧ shown w = [].

(** No video writer was asked for, written to or closed. *)
Definition never_written (w : World) : Prop :=
  sink w = None ∧
  calls_for CSinkEnter (trace w) = [] ∧
  calls_for CWriteFrame (trace w) = [] ∧
  calls_for CSinkExit (trace w) = [].

(** The calls of lines 16 to 20, made before the sink is chosen. *)
Definition setup_calls : list call :=
  [CYolo; CByteTrack; CBoxAnnotator; CFrameGenerator; CVideoInfo].

(** Nothing was started: no frame fetched, no writer, no window. *)
Definition nothing_started (w : World) : Prop :=
  calls_for CNext (trace w) = [] ∧ yielded w = 0%nat ∧
  never_written w ∧ never_displayed w.

(** [tracker.update_with_detections], applied from the initial state to
    a sequence of detection sets in turn. *)
Definition tracker_after `{Heuristics} (ds : list Detections) : ByteTrack :=
  fold_left (λ s d, (update_with_detections s d).2) ds ByteTrack_init.

(** The tracker's state is what the updates made so far built, the one
    that is being made when the run is aborted left aside. *)
Definition tracker_threaded `{Collaborators} {A} (r : result A) (w : World) : Prop :=
  tracker w = tracker_after (tracked w) ∨
  (is_raise r = true ∧
   ∃ ds d, tracked w = ds ++ [d] ∧ tracker w = tracker_after ds).

(** Every call returned, but perhaps the last one, or the one before
    the [__exit__] of the writer. *)
Definition halted `{Collaborators} (w : World) : Prop :=
  ∃ pre tail, trace w = pre ++ tail ∧
    Forall (λ e : event, faults e.1 e.2 = None) pre ∧
    (tail = [] ∨ (∃ e, tail = [e]) ∨ (∃ e i, tail = [e; (CSinkExit, i)])).

(** In a loop: every call returned, and if the loop raises then every
    call but perhaps the last. *)
Definition halted_loop `{Collaborators} (r : result unit) (w : World) : Prop :=
  match r with
  | Ok _ => all_returned w
  | Raise _ =>
      ∃ pre tail, trace w = pre ++ tail ∧
        Forall (λ e : event, faults e.1 e.2 = None) pre ∧
        (tail = [] ∨ ∃ e, tail = [e])
  end.

(** What the annotator paints on a copy of the frame [f] at the call
    [a]. *)
Definition render `{Collaborators} (f : pixels)
    (a : loc * Detections * list string) : pixels :=
  draw f a.1.2 a.2.

(** The annotated copies of the frames [fs], one for each call of the
    annotator, in the order of the calls. *)
Definition rendered `{Collaborators} (fs : list pixels) (w : World) : list pixels :=
  zip_with render fs (annotated w).

(** The frames [out] that reached a sink are the annotated copies of
    the first frames of [fs], in order and without a gap; at most the
    copy annotated last has not reached it, and none is missing when
    the run returns. *)
Definition in_order `{Collaborators} {A} (fs out : list pixels)
    (r : result A) (w : World) : Prop :=
  out `prefix_of` rendered fs w ∧
  (length (rendered fs w) ≤ S (length out))%nat ∧
  (is_raise r = false → out = rendered fs w).

(** Every frame the generator yielded is still in the store with the
    samples it was decoded to: frame [i] is the array of rank [2 * i],
    its annotated copy coming next. *)
Definition frames_intact (fs : list pixels) (w : World) : Prop :=
  ∀ i f, (i < yielded w)%nat → fs !! i = Some f →
         heap w !! (2 * i)%nat = Some f.

(** The video of [n] frames that the concrete collaborators hold. *)
Definition demo_video (n : nat) : Video :=
  {| info := {| width := 2; height := 2; fps := 25; total_frames := n |};
     frames := replicate n demo_frame |}.

(** * Properties *)

(** ** The detector: filtering by confidence *)

Lemma Qlt_bool_true a b : Qlt_bool a b = true ↔ (a < b)%Q.
Proof.
  unfold Qlt_bool. rewrite negb_true_iff. split.
  - intros Hf. apply Qnot_le_lt. intros Hle.
    apply Qle_bool_iff in Hle. congruence.
  - intros Hlt. destruct (Qle_bool b a) eqn:E; [|done].
    apply Qle_bool_iff in E. exfalso. by apply (Qlt_not_le a b).
Qed.

Lemma Qlt_bool_false a b : Qlt_bool a b = false ↔ (b <= a)%Q.
Proof.
  unfold Qlt_bool. rewrite negb_false_iff. apply Qle_bool_iff.
Qed.

Lemma confident_false t c : confident t c = false ↔ (c_conf c < t)%Q.
Proof.
  unfold confident. split.
  - intros Hf. apply Qnot_le_lt. intros Hle.
    apply Qle_bool_iff in Hle. congruence.
  - intros Hlt. destruct (Qle_bool t (c_conf c)) eqn:E; [|done].
    apply Qle_bool_iff in E. exfalso. by apply (Qlt_not_le (c_conf c) t).
Qed.

Lemma confident_true t c : confident t c = true ↔ (t <= c_conf c)%Q.
Proof. apply Qle_bool_iff. Qed.

(** A lower score than an unconfident one is unconfident too. *)
Lemma confident_below t c d :
  (c_conf c <= c_conf d)%Q → confident t d = false → confident t c = false.
Proof.
  rewrite !confident_false. intros Hle Hlt.
  by apply Qle_lt_trans with (c_conf d).
Qed.

Lemma filter_nothing {A} (p : A → bool) l :
  Forall (λ a, p a = false) l → List.filter p l = [].
Proof.
  induction 1 as [|a l Ha _ IH]; simpl; [done|]. by rewrite Ha.
Qed.

Lemma filter_Forall {A} (P : A → Prop) (p : A → bool) l :
  Forall P l → Forall P (List.filter p l).
Proof.
  induction 1 as [|a l Ha _ IH]; simpl; [constructor|].
  destruct (p a); [by constructor|done].
Qed.

Lemma filter_sublist {A} (p : A → bool) l : List.filter p l `sublist_of` l.
Proof.
  induction l as [|a l IH]; simpl; [constructor|].
  destruct (p a); by constructor.
Qed.

Lemma insert_by_conf_Forall (P : Candidate → Prop) c l :
  P c → Forall P l → Forall P (insert_by_conf c l).
Proof.
  intros Hc. induction 1 as [|d l Hd Hl IH]; simpl.
  - by repeat constructor.
  - destruct (Qlt_bool (c_conf c) (c_conf d)); by repeat constructor.
Qed.

Lemma insert_by_conf_descending c l :
  descending l → descending (insert_by_conf c l).
Proof.
  unfold descending. induction 1 as [|d l Hs IH Hd]; simpl.
  - by repeat constructor.
  - destruct (Qlt_bool (c_conf c) (c_conf d)) eqn:E.
    + constructor; [done|]. apply insert_by_conf_Forall; [|done].
      apply Qlt_bool_true in E. by apply Qlt_le_weak.
    + apply Qlt_bool_false in E. constructor; [by constructor|].
      constructor; [done|].
      eapply Forall_impl; [exact Hd|]. intros e He; simpl in *.
      by apply Qle_trans with (c_conf d).
Qed.

Lemma sort_by_conf_descending l : descending (sort_by_conf l).
Proof.
  induction l as [|c l IH]; simpl; [constructor|].
  by apply insert_by_conf_descending.
Qed.

(** In front of scores that are no higher, insertion is a cons. *)
Lemma insert_by_conf_front c l :
  Forall (λ e, (c_conf e <= c_conf c)%Q) l → insert_by_conf c l = c :: l.
Proof.
  destruct 1 as [|d l Hd _]; simpl; [done|].
  apply Qlt_bool_false in Hd. by rewrite Hd.
Qed.

Lemma filter_insert_by_conf t c l :
  descending l →
  List.filter (confident t) (insert_by_conf c l) =
  if confident t c then insert_by_conf c (List.filter (confident t) l)
  else List.filter (confident t) l.
Proof.
  unfold descending. induction 1 as [|d l Hs IH Hd]; simpl.
  - by destruct (confident t c).
  - destruct (Qlt_bool (c_conf c) (c_conf d)) eqn:E; simpl.
    + rewrite IH. destruct (confident t d) eqn:Ed.
      * destruct (confident t c); simpl; [by rewrite E|done].
      * apply Qlt_bool_true, Qlt_le_weak in E.
        by rewrite (confident_below t c d E Ed).
    + apply Qlt_bool_false in E.
      destruct (confident t c) eqn:Ec; [|done].
      destruct (confident t d) eqn:Ed; simpl.
      * apply Qlt_bool_false in E. by rewrite E.
      * symmetry. apply insert_by_conf_front, filter_Forall.
        eapply Forall_impl; [exact Hd|]. intros e He; simpl in *.
        by apply Qle_trans with (c_conf d).
Qed.

(** Filtering by confidence commutes with the sort. *)
Lemma filter_sort_by_conf t l :
  List.filter (confident t) (sort_by_conf l) =
  sort_by_conf (List.filter (confident t) l).
Proof.
  induction l as [|c l IH]; simpl; [done|].
  rewrite filter_insert_by_conf by apply sort_by_conf_descending.
  rewrite IH. by destruct (confident t c).
Qed.

Lemma suppress_Forall (P : Candidate → Prop) iou kept l :
  Forall P l → Forall P (suppress iou kept l).
Proof.
  intros H. revert kept. induction H as [|c l Hc _ IH]; intros kept; simpl.
  - constructor.
  - destruct (existsb (overlaps iou c) kept); [done|]. by constructor.
Qed.

(** On a descending list, filtering by confidence commutes with the
    suppression: what is dropped comes last and suppresses nothing
    that is kept. *)
Lemma filter_suppress t iou kept l :
  descending l →
  List.filter (confident t) (suppress iou kept l) =
  suppress iou kept (List.filter (confident t) l).
Proof.
  unfold descending. intros Hs. revert kept.
  induction Hs as [|c l Hs IH Hc]; intros kept; simpl; [done|].
  destruct (confident t c) eqn:Ec; simpl.
  - destruct (existsb (overlaps iou c) kept); simpl; [done|].
    by rewrite Ec, IH.
  - assert (Forall (λ e, confident t e = false) l) as Hl.
    { eapply Forall_impl; [exact Hc|]. intros e He; simpl in *.
      by apply confident_below with c. }
    rewrite (filter_nothing _ l Hl); simpl.
    apply filter_nothing.
    destruct (existsb (overlaps iou c) kept).
    + by apply suppress_Forall.
    + constructor; [done|]. by apply suppress_Forall.
Qed.

Lemma filter_confident_twice t1 t2 l :
  (t1 < t2)%Q →
  List.filter (confident t2) (List.filter (confident t1) l) =
  List.filter (confident t2) l.
Proof.
  intros Hlt. induction l as [|c l IH]; simpl; [done|].
  destruct (confident t1 c) eqn:E1; simpl; [by rewrite IH|].
  rewrite IH. destruct (confident t2 c) eqn:E2; [|done].
  apply confident_false in E1. apply confident_true in E2.
  exfalso. apply (Qlt_not_le t1 t2 Hlt).
  apply Qle_trans with (c_conf c); [done|by apply Qlt_le_weak].
Qed.

(** Raising the threshold keeps exactly the results that pass it. *)
Lemma predict_threshold raw t1 t2 iou :
  (t1 < t2)%Q →
  predict raw t2 iou = List.filter (confident t2) (predict raw t1 iou).
Proof.
  intros Hlt. unfold predict.
  rewrite filter_suppress by apply sort_by_conf_descending.
  by rewrite filter_sort_by_conf, filter_confident_twice.
Qed.

(** ** Iterating over detections *)

Lemma rmap_Ok_inv {A B} (f : A → result B) xs l :
  rmap f xs = Ok l → Forall2 (λ x b, f x = Ok b) xs l.
Proof.
  revert l. induction xs as [|x xs IH]; intros l; simpl.
  - intros [= <-]. constructor.
  - destruct (f x) as [b|] eqn:Eb; simpl; [|done].
    destruct (rmap f xs) as [bs|] eqn:Ebs; simpl; [|done].
    intros [= <-]. constructor; [done|]. by apply IH.
Qed.

Lemma rmap_seq {B} (f : nat → result B) (g : list B) s :
  (∀ i b, g !! i = Some b → f (s + i)%nat = Ok b) →
  rmap f (seq s (length g)) = Ok g.
Proof.
  revert s. induction g as [|b g IH]; intros s Hf; simpl; [done|].
  rewrite <- (Nat.add_0_r s) at 1. rewrite (Hf 0%nat b eq_refl); simpl.
  rewrite IH; [done|]. intros i c Hi.
  replace (S s + i)%nat with (s + S i)%nat by lia. by apply Hf.
Qed.

Lemma iter_from_ultralytics r :
  Detections_iter (from_ultralytics r) = Ok (row_of <$> r).
Proof.
  unfold Detections_iter, len; simpl.
  replace (length (c_box <$> r)) with (length (row_of <$> r))
    by by rewrite !length_fmap.
  apply rmap_seq. intros i b; simpl. rewrite list_lookup_fmap.
  destruct (r !! i) as [c|] eqn:Ec; intros Hb; simplify_eq/=.
  unfold row_at; simpl. by rewrite !list_lookup_fmap, Ec.
Qed.

Lemma row_at_tracker_id d i r :
  row_at d i = Ok r → r.2 = tracker_id_at d i.
Proof.
  unfold row_at, tracker_id_at, column_at; simpl.
  destruct (xyxy d !! i); simpl; [|done].
  destruct (mask d) as [m|]; [destruct (m !! i)|]; simpl; try done;
  (destruct (confidence d) as [c|]; [destruct (c !! i)|]; simpl; try done);
  (destruct (class_id d) as [k|]; [destruct (k !! i)|]; simpl; try done);
  (destruct (tracker_id d) as [t|]; [destruct (t !! i)|]; simpl; try done);
  by intros [= <-].
Qed.

(** What the comprehension builds, whenever it returns. *)
Lemma make_labels_inv d ls :
  make_labels d = Ok ls →
  length ls = len d ∧
  ∀ i, (i < len d)%nat → ls !! i = Some ("#" +:+ py_str (tracker_id_at d i)).
Proof.
  unfold make_labels, Detections_iter.
  destruct (rmap (row_at d) (seq 0 (len d))) as [rows|] eqn:E; simpl; [|done].
  intros [= <-]. apply rmap_Ok_inv in E. split.
  - rewrite length_fmap, <- (Forall2_length _ _ _ E). apply length_seq.
  - intros i Hi. rewrite list_lookup_fmap.
    destruct (Forall2_lookup_l _ _ _ i i E) as (r & -> & Hr).
    { by apply lookup_seq_lt. }
    simpl. apply row_at_tracker_id in Hr. rewrite <- Hr.
    by destruct r as [[[[? ?] ?] ?] ?].
Qed.

(** With aligned columns the iteration does not raise. *)
Lemma row_at_total d i :
  well_formed d → (i < len d)%nat → ∃ r, row_at d i = Ok r.
Proof.
  intros (Hm & Hc & Hk & Ht) Hi. unfold row_at, column_at, len in *.
  destruct (lookup_lt_is_Some_2 (xyxy d) i Hi) as [b ->]; simpl.
  destruct (mask d) as [m|]; simpl in *.
  1: destruct (lookup_lt_is_Some_2 m i ltac:(lia)) as [? ->]; simpl.
  all: destruct (confidence d) as [c|]; simpl in *.
  1,3: destruct (lookup_lt_is_Some_2 c i ltac:(lia)) as [? ->]; simpl.
  all: destruct (class_id d) as [k|]; simpl in *.
  1,3,5,7: destruct (lookup_lt_is_Some_2 k i ltac:(lia)) as [? ->]; simpl.
  all: destruct (tracker_id d) as [t|]; simpl in *.
  all: try (destruct (lookup_lt_is_Some_2 t i ltac:(lia)) as [? ->]; simpl).
  all: by eexists.
Qed.

Lemma rmap_total {A B} (f : A → result B) xs :
  Forall (λ x, ∃ b, f x = Ok b) xs → ∃ l, rmap f xs = Ok l.
Proof.
  induction 1 as [|x xs [b Hb] _ [l IH]]; simpl; [by eexists|].
  rewrite Hb, IH; simpl. by eexists.
Qed.

Lemma make_labels_total d :
  well_formed d → ∃ ls, make_labels d = Ok ls.
Proof.
  intros Hwf. unfold make_labels, Detections_iter.
  destruct (rmap_total (row_at d) (seq 0 (len d))) as [rows ->].
  - apply Forall_forall. intros i Hi%elem_of_seq.
    apply row_at_total; [done|lia].
  - simpl. by eexists.
Qed.

(** ** The tracker *)

Lemma assign_all_length `{Heuristics} n s d i :
  (i + n ≤ len d)%nat → length (assign_all s d i n).1 = n.
Proof.
  revert s i. induction n as [|n IH]; intros s i Hi; simpl; [done|].
  unfold len in Hi.
  destruct (lookup_lt_is_Some_2 (xyxy d) i ltac:(lia)) as [b ->].
  destruct (assign_one _ _ _) as [t s1].
  specialize (IH s1 (S i) ltac:(unfold len; lia)).
  destruct (assign_all s1 d (S i) n) as [ts s2]; simpl in *. by rewrite IH.
Qed.

Lemma pick_length {A} ids (col : list A) :
  length ids = length col → length (pick ids col) = length (omap id ids).
Proof.
  revert col. induction ids as [|[z|] ids IH]; intros [|a col]; simpl;
    try done; intros [= Hl]; by rewrite IH.
Qed.



Section tracker.
Context `{Heuristics}.

(** The columns of the tracker's output, from the identifiers it
    assigned. *)
Lemma update_with_detections_columns s d :
  ∃ ids, length ids = len d ∧
    xyxy (update_with_detections s d).1 = pick ids (xyxy d) ∧
    mask (update_with_detections s d).1 = pick ids <$> mask d ∧
    confidence (update_with_detections s d).1 = pick ids <$> confidence d ∧
    class_id (update_with_detections s d).1 = pick ids <$> class_id d ∧
    tracker_id (update_with_detections s d).1 = Some (omap id ids).
Proof.
  unfold update_with_detections.
  pose proof (assign_all_length (len d)
    {| tracks := age <$> tracks s; id_counter := id_counter s |} d 0
    ltac:(lia)) as Hl.
  destruct (assign_all _ d 0 (len d)) as [ids s1]; simpl in *.
  by exists ids.
Qed.

Lemma update_with_detections_ids s d :
  ∃ ids, tracker_id (update_with_detections s d).1 = Some ids ∧
         length ids = len (update_with_detections s d).1.
Proof.
  destruct (update_with_detections_columns s d)
    as (ids & Hl & Hx & _ & _ & _ & Ht).
  exists (omap id ids). split; [done|].
  unfold len. rewrite Hx. symmetry. by apply pick_length.
Qed.

Lemma update_with_detections_well_formed s d :
  well_formed d → well_formed (update_with_detections s d).1.
Proof.
  intros (Hm & Hc & Hk & Ht).
  destruct (update_with_detections_columns s d)
    as (ids & Hl & Hx & Em & Ec & Ek & Et).
  unfold well_formed, len in *. rewrite Hx, Em, Ec, Ek, Et.
  repeat split.
  - destruct (mask d) as [m|]; simpl in *; [|done].
    rewrite !pick_length; [done|lia..].
  - destruct (confidence d) as [m|]; simpl in *; [|done].
    rewrite !pick_length; [done|lia..].
  - destruct (class_id d) as [m|]; simpl in *; [|done].
    rewrite !pick_length; [done|lia..].
  - simpl. symmetry. by apply pick_length.
Qed.

Lemma update_with_detections_id_at s d i :
  (i < len (update_with_detections s d).1)%nat →
  ∃ z, tracker_id_at (update_with_detections s d).1 i = Some z.
Proof.
  destruct (update_with_detections_ids s d) as (ids & Hi & Hl).
  intros Hlt. unfold tracker_id_at. rewrite Hi.
  apply lookup_lt_is_Some_2. lia.
Qed.
End tracker.

Lemma from_ultralytics_well_formed r : well_formed (from_ultralytics r).
Proof.
  unfold well_formed, len; simpl. by rewrite !length_fmap.
Qed.

Lemma set_class_id_zeros_well_formed d :
  well_formed d → well_formed (set_class_id d (np_zeros (len d))).
Proof.
  intros (Hm & Hc & Hk & Ht). unfold well_formed, len, np_zeros in *; simpl.
  by rewrite length_replicate.
Qed.

(** ** Rules for computations *)

Section rules.
Context `{Collaborators}.

Lemma wp_ret {A} (a : A) Q w : Q (Ok a) w → wp (mret a) Q w.
Proof. done. Qed.

Lemma wp_bind {A B} (m : M A) (k : A → M B) Q w :
  wp m (λ r w', match r with
                | Ok a => wp (k a) Q w'
                | Raise e => Q (Raise e) w'
                end) w →
  wp (m ≫= k) Q w.
Proof.
  unfold wp, mbind, M_bind, bind. by destruct (m w) as [[a|e] w'].
Qed.

Lemma wp_mono {A} (m : M A) (Q Q' : result A → World → Prop) w :
  (∀ r w', Q r w' → Q' r w') → wp m Q w → wp m Q' w.
Proof. unfold wp. auto. Qed.

Lemma wp_raise {A} e (Q : result A → World → Prop) w :
  Q (Raise e) w → wp (raise e) Q w.
Proof. done. Qed.

Lemma wp_lift {A} (r : result A) Q w : Q r w → wp (lift r) Q w.
Proof. done. Qed.

Lemma wp_gets {A} (f : World → A) Q w : Q (Ok (f w)) w → wp (gets f) Q w.
Proof. done. Qed.

Lemma wp_modify f Q w : Q (Ok tt) (f w) → wp (modify f) Q w.
Proof. done. Qed.

Lemma wp_invoke c i Q w :
  match faults c i with
  | Some e => Q (Raise e) (log (c, i) w)
  | None => Q (Ok tt) (log (c, i) w)
  end →
  wp (invoke c i) Q w.
Proof. unfold wp, invoke; simpl. by destruct (faults c i). Qed.

Lemma wp_with {R A} (enter : M R) (exit : R → M unit) (body : R → M A) Q w :
  wp enter (λ r w1,
    match r with
    | Raise e => Q (Raise e) w1
    | Ok x =>
        wp (body x) (λ r2 w2,
          wp (exit x) (λ r3 w3,
            Q (match r3 with Ok _ => r2 | Raise e' => Raise e' end) w3) w2) w1
    end) w →
  wp (with_ enter exit body) Q w.
Proof.
  unfold wp, with_. destruct (enter w) as [[x|e] w1]; simpl; [|done].
  destruct (body x w1) as [[a|e] w2]; simpl;
    by destruct (exit x w2) as [[[]|e'] w3].
Qed.

(** The loop, with an invariant over what the generator has left. *)
Lemma wp_for_frames (I : list pixels → World → Prop) body Q :
  (∀ w, I [] w → wp (i ← gets yielded; invoke CNext i) Q w) →
  (∀ f g w, I (f :: g) w →
     wp (next_frame f) (λ r w1,
       match r with
       | Raise e => Q (Raise e) w1
       | Ok frame =>
           wp (body frame) (λ r2 w2,
             match r2 with
             | Raise e => Q (Raise e) w2
             | Ok Break => Q (Ok tt) w2
             | Ok Continue => I g w2
             end) w1
       end) w) →
  ∀ g w, I g w → wp (for_frames g body) Q w.
Proof.
  intros Hend Hstep g. induction g as [|f g IH]; intros w HI; simpl.
  - by apply Hend.
  - apply wp_bind. eapply wp_mono; [|by apply Hstep].
    intros [frame|e] w1; [|done]. intros Hb.
    apply wp_bind. eapply wp_mono; [|exact Hb].
    intros [[|]|e] w2; try done. apply IH.
Qed.

(** The loop keeps what each of its calls keeps. *)
Lemma wp_for_frames_stable (P : World → Prop) body :
  (∀ w i, P w → P (log (CNext, i) w)) →
  (∀ w h, P w → P (set_heap h w)) →
  (∀ w n, P w → P (set_yielded n w)) →
  (∀ w frame, P w → wp (body frame) (λ _ w', P w') w) →
  ∀ g w, P w → wp (for_frames g body) (λ _ w', P w') w.
Proof.
  intros Hlog Hheap Hyield Hbody.
  apply (wp_for_frames (λ _ w, P w)).
  - intros w Hw. apply wp_bind, wp_gets, wp_invoke.
    destruct (faults _ _); by apply Hlog.
  - intros f g w Hw. unfold next_frame, alloc.
    apply wp_bind, wp_gets, wp_bind, wp_invoke.
    destruct (faults _ _); [by apply Hlog|].
    apply wp_bind, wp_bind, wp_gets, wp_bind, wp_modify, wp_ret.
    apply wp_bind, wp_modify, wp_ret.
    eapply wp_mono; [|apply Hbody; auto].
    by intros [[|]|e] w2.
Qed.
End rules.

Global Arguments wp : simpl never.

(** One step of symbolic execution. *)
Ltac wp_step :=
  lazymatch goal with
  | |- wp (mbind _ _) _ _ => apply wp_bind
  | |- wp (mret _) _ _ => apply wp_ret
  | |- wp (raise _) _ _ => apply wp_raise
  | |- wp (lift _) _ _ => apply wp_lift
  | |- wp (gets _) _ _ => apply wp_gets
  | |- wp (modify _) _ _ => apply wp_modify
  | |- wp (invoke ?c ?i) _ _ =>
      apply wp_invoke; let E := fresh "Hfault" in destruct (faults c i) eqn:E
  | |- wp (invoke_here _) _ _ => unfold invoke_here
  | |- wp (read _) _ _ => unfold read
  | |- wp (alloc _) _ _ => unfold alloc
  | |- wp (ndarray_copy _) _ _ => unfold ndarray_copy
  | |- wp (next_frame _) _ _ => unfold next_frame
  | |- wp (model_call _ _ _ _) _ _ => unfold model_call
  | |- wp (Detections_from_ultralytics _) _ _ => unfold Detections_from_ultralytics
  | |- wp (tracker_update _ _) _ _ => unfold tracker_update
  | |- wp (annotate _ _ _ _) _ _ => unfold annotate
  | |- wp (write_frame _ _) _ _ => unfold write_frame
  | |- wp (imshow _ _) _ _ => unfold imshow
  | |- wp (waitKey _) _ _ => unfold waitKey
  | |- wp (destroyAllWindows) _ _ => unfold destroyAllWindows
  | |- wp (VideoSink_enter _ _) _ _ => unfold VideoSink_enter
  | |- wp (VideoSink_exit _) _ _ => unfold VideoSink_exit
  | |- wp (YOLO _) _ _ => unfold YOLO
  | |- wp ByteTrack_new _ _ => unfold ByteTrack_new
  | |- wp BoxAnnotator_new _ _ => unfold BoxAnnotator_new
  | |- wp (get_video_frames_generator _) _ _ => unfold get_video_frames_generator
  | |- wp (VideoInfo_from_video_path _) _ _ => unfold VideoInfo_from_video_path
  | |- wp (process_frame _ _ _ _ _ _) _ _ => unfold process_frame
  | |- wp (file_body _ _ _ _ _ _ _) _ _ => unfold file_body
  | |- wp (display_body _ _ _ _ _ _) _ _ => unfold display_body
  | |- wp (with_ _ _ _) _ _ => apply wp_with
  | |- wp (let '(_, _) := ?p in _) _ _ => rewrite (surjective_pairing p)
  | |- wp (match ?x with _ => _ end) _ _ => destruct x eqn:?
  | |- match ?x with _ => _ end => destruct x eqn:?
  end; unfold current; simpl.

Ltac wp_run := repeat wp_step.

(** ** Traces *)

Lemma calls_for_snoc c tr c' i :
  calls_for c (tr ++ [(c', i)]) =
  calls_for c tr ++ (if decide (c' = c) then [i] else []).
Proof.
  unfold calls_for. rewrite filter_app, fmap_app. f_equal.
  rewrite filter_cons; simpl. by destruct (decide (c' = c)).
Qed.

(** A property that every call keeps holds when the program ends. *)
Ltac wp_stable P tac :=
  unfold process_video; wp_run;
  try (eapply wp_mono;
       [|apply (wp_for_frames_stable P);
         [intros; tac..|intros ? ? ?; wp_run; tac|tac]];
       intros [[]|?] ? ?; simpl in *; wp_run; tac);
  tac.

(** ** The class override *)

Lemma single_class_zeros d : single_class (set_class_id d (np_zeros (len d))).
Proof.
  intros i Hi. unfold class_id_at, np_zeros; simpl.
  apply lookup_replicate_2. exact Hi.
Qed.

Ltac tracked_ok_tac :=
  unfold tracked_ok in *; simpl;
  rewrite ?calls_for_snoc, ?length_app, ?Forall_app; simpl;
  intuition (try lia; auto using single_class_zeros).

Section class_override.
Context `{Collaborators}.

Lemma process_video_tracked wts src tgt conf iou :
  wp (process_video wts src tgt conf iou) (λ _ w, tracked_ok w) init_world.
Proof. wp_stable tracked_ok tracked_ok_tac. Qed.
End class_override.

(** ** Labels *)

Lemma labels_of_tracked `{Heuristics} s d ls :
  make_labels (update_with_detections s d).1 = Ok ls →
  labels_match (update_with_detections s d).1 ls ∧
  labels_identified (update_with_detections s d).1 ls.
Proof.
  intros [Hlen Hat]%make_labels_inv. split; [done|].
  intros i Hi. destruct (update_with_detections_id_at s d i Hi) as [z Hz].
  exists z. split; [done|]. by rewrite (Hat i Hi), Hz.
Qed.

Ltac annotated_ok_tac :=
  unfold annotated_ok in *; simpl;
  rewrite ?calls_for_snoc, ?length_app, ?Forall_app; simpl;
  intuition (try lia; auto);
  try (repeat constructor; simpl; eapply labels_of_tracked; eassumption).

Section labels.
Context `{Collaborators}.

Lemma process_video_annotated wts src tgt conf iou :
  wp (process_video wts src tgt conf iou) (λ _ w, annotated_ok w) init_world.
Proof. wp_stable annotated_ok annotated_ok_tac. Qed.
End labels.

(** ** The frame and its annotated copy *)

Lemma insert_last {A} (h : list A) (a b : A) :
  <[length h := b]> (h ++ [a]) = h ++ [b].
Proof.
  rewrite <- (Nat.add_0_r (length h)). by rewrite insert_app_r.
Qed.

Section copy.
Context `{Collaborators}.

(** [process_frame] writes to no array that existed before the call:
    the scene it paints and returns is a fresh one. *)
Lemma process_frame_heap frame model tr ba conf iou w :
  wp (process_frame frame model tr ba conf iou)
     (λ r w', heap w `prefix_of` heap w' ∧
              match r with
              | Ok scene => scene = length (heap w) ∧ is_Some (heap w' !! scene)
              | Raise _ => True
              end) w.
Proof.
  wp_run; try done.
  - split; [by apply prefix_app_r|done].
  - rewrite insert_last. split; [by apply prefix_app_r|split; [done|]].
    rewrite lookup_app_r by done. rewrite Nat.sub_diag. by eexists.
Qed.

(** Painted directly, an array changes: the copy is what protects
    the frame. *)
Lemma annotate_paints_scene ba scene d labels w px :
  heap w !! scene = Some px →
  faults CAnnotate (current w) = None →
  (annotate ba scene d labels w).1 = Ok scene ∧
  heap (annotate ba scene d labels w).2 !! scene = Some (draw px d labels).
Proof.
  intros Hpx Hf. unfold annotate, invoke_here, invoke, read, modify, gets,
    mbind, M_bind, bind, mret, M_ret, ret, current in *; simpl.
  rewrite Hf; simpl. split; [done|]. rewrite Hpx; simpl.
  apply list_lookup_insert_eq. by eapply lookup_lt_Some.
Qed.
End copy.

(** ** One update per frame, and no frame fetched ahead *)

Lemma snoc_split {A} (tr pre post : list A) e x :
  tr ++ [e] = pre ++ x :: post →
  (post = [] ∧ pre = tr ∧ x = e) ∨
  (∃ post', post = post' ++ [e] ∧ tr = pre ++ x :: post').
Proof.
  destruct post as [|y post _] using rev_ind; intros Heq.
  - left. by apply app_inj_tail in Heq as [-> ->].
  - right. exists post.
    rewrite app_comm_cons, app_assoc in Heq.
    by apply app_inj_tail in Heq as [-> ->].
Qed.

Section prefetch.
Context `{Collaborators}.

Lemma no_prefetch_no_next tr :
  Forall (λ e : event, e.1 ≠ CNext) tr → no_prefetch tr.
Proof.
  intros Hall pre post n ->. apply Forall_app in Hall as [_ Hall].
  by inversion Hall.
Qed.

Lemma no_prefetch_snoc_other tr c i :
  c ≠ CNext → no_prefetch tr → no_prefetch (tr ++ [(c, i)]).
Proof.
  intros Hc Htr pre post n Heq.
  apply snoc_split in Heq as [(_ & _ & [= <- _])|(post' & _ & ->)]; [done|].
  by eapply Htr.
Qed.

Lemma no_prefetch_snoc_first tr :
  no_prefetch tr → no_prefetch (tr ++ [(CNext, 0%nat)]).
Proof.
  intros Htr pre post n Heq.
  apply snoc_split in Heq as [(_ & _ & [=])|(post' & _ & ->)].
  by eapply Htr.
Qed.

Lemma no_prefetch_snoc_next tr sc n :
  sink_call (sc, n) n → faults sc n = None →
  no_prefetch (tr ++ [(sc, n)]) →
  no_prefetch ((tr ++ [(sc, n)]) ++ [(CNext, S n)]).
Proof.
  intros Hsc Hf Htr pre post m Heq.
  apply snoc_split in Heq as [(_ & -> & [= ->])|(post' & _ & Heq)].
  - by exists tr, (sc, n).
  - by eapply Htr.
Qed.
End prefetch.

Section order.
Context `{Collaborators}.

Lemma head_ok_next sc w :
  head_ok sc w → no_prefetch (trace w ++ [(CNext, yielded w)]).
Proof.
  intros (_ & Hp & Hl). destruct (yielded w) as [|n].
  - by apply no_prefetch_snoc_first.
  - destruct (Hl n eq_refl) as (pre & Htr & Hsc & Hf).
    rewrite Htr in *. by apply no_prefetch_snoc_next.
Qed.
End order.

Lemma seq_snoc (l : list nat) n : l = seq 0 n → l ++ [n] = 0%nat :: seq 1 n.
Proof. intros ->. symmetry. exact (seq_S n 0). Qed.

Ltac order_calls Hu :=
  first
    [ left; first [exact Hu | by apply seq_snoc]
    | right; split; [done|]; eexists; split; [reflexivity|exact Hu] ].

Ltac order_prefetch Hw :=
  repeat (apply no_prefetch_snoc_other; [discriminate|]);
  first [by eapply head_ok_next | by destruct Hw as (_ & ? & _) | done].

Ltac order_tac Hw :=
  let Hu := fresh "Hu" in
  pose proof Hw as Hu; destruct Hu as (Hu & _);
  unfold run_ok, head_ok; simpl in *;
  rewrite ?calls_for_snoc; simpl; rewrite ?app_nil_r;
  repeat split;
  [ first [order_calls Hu | by apply seq_snoc]
  | order_prefetch Hw
  | try (intros ? [= <-]; eexists; split; [reflexivity|];
         split; [first [by left | by right]|assumption]) .. ].

Section order_loops.
Context `{Collaborators}.

Lemma file_loop_order g model conf iou w :
  head_ok CWriteFrame w →
  wp (for_frames g (file_body model () () conf iou ())) run_ok w.
Proof.
  apply (wp_for_frames (λ _ w, head_ok CWriteFrame w)).
  - intros w0 Hw. wp_run; order_tac Hw.
  - intros f g0 w0 Hw. wp_run. all: order_tac Hw.
Qed.

Lemma display_loop_order g model conf iou w :
  head_ok (CWaitKey 1) w →
  wp (for_frames g (display_body model () () conf iou)) run_ok w.
Proof.
  apply (wp_for_frames (λ _ w, head_ok (CWaitKey 1) w)).
  - intros w0 Hw. wp_run; order_tac Hw.
  - intros f g0 w0 Hw. wp_run. all: order_tac Hw.
Qed.
End order_loops.

Section order_run.
Context `{Collaborators}.

(** A later call that is neither a fetch nor an update changes
    nothing to the order, nor does a later exception. *)
Lemma run_ok_after r r' w w' c i :
  run_ok r w → c ≠ CNext → c ≠ CUpdate →
  (is_raise r = true → is_raise r' = true) →
  yielded w' = yielded w → trace w' = trace w ++ [(c, i)] →
  run_ok r' w'.
Proof.
  intros [Hu Hp] Hn Hc Hr Hy Ht. unfold run_ok.
  rewrite Ht, Hy, calls_for_snoc. destruct (decide (c = CUpdate)); [done|].
  rewrite app_nil_r. split; [|by apply no_prefetch_snoc_other].
  destruct Hu as [Hu|(Hr' & m & Hm & Hu)]; [by left|].
  right. split; [by apply Hr|]. by exists m.
Qed.

Lemma process_video_order wts src tgt conf iou :
  wp (process_video wts src tgt conf iou) run_ok init_world.
Proof.
  unfold process_video. wp_run.
  7: { eapply wp_mono; [|apply file_loop_order].
       - intros r w Hr. wp_run.
         all: eapply (run_ok_after r _ _ _ CSinkExit);
           [exact Hr|done|done| |reflexivity|reflexivity].
         all: by destruct r.
       - unfold head_ok; simpl. repeat split; [|done].
         apply no_prefetch_no_next. by repeat constructor. }
  7: { eapply wp_mono; [|apply display_loop_order].
       - intros r w Hr. destruct r as [[]|e]; [|done]. wp_run.
         all: by eapply (run_ok_after (Ok tt) _ _ _ CDestroyAllWindows);
           [exact Hr|done|done|done|reflexivity|reflexivity].
       - unfold head_ok; simpl. repeat split; [|done].
         apply no_prefetch_no_next. by repeat constructor. }
  all: unfold run_ok; simpl; split; [by left|].
  all: apply no_prefetch_no_next; by repeat constructor.
Qed.
End order_run.

(** ** The writer is released on every way out *)

Ltac sink_open_tac Hw :=
  let s := fresh "s" in
  let Hs := fresh "Hs" in
  destruct Hw as (s & Hs & ? & ? & ?);
  unfold sink_open; simpl; rewrite ?Hs; simpl;
  rewrite ?calls_for_snoc; simpl; rewrite ?app_nil_r;
  eexists; by repeat split.

Section release.
Context `{Collaborators}.

Lemma file_loop_sink g model conf iou w :
  sink_open w →
  wp (for_frames g (file_body model () () conf iou ()))
     (λ _ w', sink_open w') w.
Proof.
  apply (wp_for_frames_stable sink_open).
  - intros w0 i Hw. sink_open_tac Hw.
  - intros w0 h Hw. sink_open_tac Hw.
  - intros w0 n Hw. sink_open_tac Hw.
  - intros w0 frame Hw. wp_run. all: sink_open_tac Hw.
Qed.

Lemma process_video_release wts src tgt conf iou :
  truthy tgt = true →
  wp (process_video wts src tgt conf iou) (λ _ w, release_ok w) init_world.
Proof.
  intros Htgt. unfold process_video. wp_run.
  7: { eapply wp_mono; [|apply file_loop_sink].
       - intros r w (s & Hs & Hr & He & Hx). wp_run.
         all: unfold release_ok, current; simpl; rewrite Hs; simpl.
         all: rewrite !calls_for_snoc, last_snoc, He, Hx; simpl.
         all: repeat split; try done. congruence.
       - unfold sink_open; simpl. eexists. by repeat split. }
  7: congruence.
  all: unfold release_ok; simpl; split; [done|]; try by left.
  right. congruence.
Qed.
End release.

(** ** Exceptions reach the caller *)

Ltac returned_tac Hw :=
  unfold all_returned in *; simpl;
  rewrite ?Forall_app; repeat split;
  first [exact Hw | by repeat constructor].

Ltac propagated_tac Hw :=
  unfold propagated; simpl; first [by left | right; returned_tac Hw].

Section propagation.
Context `{Collaborators}.

Lemma loop_propagated g body w :
  (∀ w0 frame, all_returned w0 →
     wp (body frame) (λ r w', match r with
                              | Ok _ => all_returned w'
                              | Raise _ => True
                              end) w0) →
  all_returned w →
  wp (for_frames g body) propagated w.
Proof.
  intros Hbody. apply (wp_for_frames (λ _ w, all_returned w)).
  - intros w0 Hw. wp_run; propagated_tac Hw.
  - intros f g0 w0 Hw. wp_run; [propagated_tac Hw|].
    eapply wp_mono; [|apply Hbody].
    + intros [[|]|e] w' Hw'; try done; [by right|by left].
    + returned_tac Hw.
Qed.

Lemma process_video_propagated wts src tgt conf iou :
  wp (process_video wts src tgt conf iou) propagated init_world.
Proof.
  unfold process_video. wp_run.
  7: { eapply wp_mono; [|apply loop_propagated].
       - intros r w Hr. wp_run; [by left|].
         destruct r; [|by left]. destruct Hr as [?|Hr]; [done|].
         propagated_tac Hr.
       - intros w0 frame Hw. wp_run; try done. all: returned_tac Hw.
       - unfold all_returned; simpl. by repeat constructor. }
  7: { eapply wp_mono; [|apply loop_propagated].
       - intros [[]|e] w Hr; [|by left]. destruct Hr as [?|Hr]; [done|].
         wp_run; propagated_tac Hr.
       - intros w0 frame Hw. wp_run; try done. all: returned_tac Hw.
       - unfold all_returned; simpl. by repeat constructor. }
  all: by left.
Qed.
End propagation.

(** ** The display loop and the quit key *)

Lemma make_labels_pipeline `{Heuristics} s r :
  ∃ ls, make_labels
          (update_with_detections s
             (set_class_id (from_ultralytics r)
                (np_zeros (len (from_ultralytics r))))).1 = Ok ls.
Proof.
  apply make_labels_total, update_with_detections_well_formed.
  apply set_class_id_zeros_well_formed, from_ultralytics_well_formed.
Qed.

Ltac no_fault Hnf :=
  match goal with
  | Hf : faults _ _ = Some _ |- _ => rewrite Hnf in Hf by lia; discriminate
  end.

Ltac labels_total :=
  match goal with
  | Hr : make_labels
           (update_with_detections ?s
              (set_class_id (from_ultralytics ?r) _)).1 = Raise _ |- _ =>
      let Hls := fresh "Hls" in
      destruct (make_labels_pipeline s r) as [? Hls];
      rewrite Hls in Hr; discriminate
  end.

Ltac displayed_tac Hd :=
  let H1 := fresh in let H2 := fresh in let H3 := fresh in
  let H4 := fresh in let H5 := fresh in
  destruct Hd as (H1 & H2 & H3 & H4 & H5);
  unfold displayed; simpl;
  rewrite ?calls_for_snoc; simpl; rewrite ?app_nil_r;
  repeat split; first [assumption | by apply seq_snoc].

Section quit.
Context `{Collaborators}.

Lemma display_loop_quit k g model conf iou w :
  (∀ c i, (i ≤ k)%nat → faults c i = None) →
  quits k → (∀ j, (j < k)%nat → ¬ quits j) →
  displayed w → (yielded w ≤ k)%nat → (k < yielded w + length g)%nat →
  wp (for_frames g (display_body model () () conf iou))
     (λ r w', r = Ok tt ∧ displayed w' ∧ yielded w' = S k) w.
Proof.
  intros Hnf Hk Hj Hd Hy Hg.
  apply (wp_for_frames (λ g w, displayed w ∧ (yielded w ≤ k)%nat ∧
                               (k < yielded w + length g)%nat));
    [| |done].
  - intros w0 (_ & ? & ?); simpl in *. lia.
  - intros f g0 w0 (Hd0 & Hy0 & Hg0); simpl in Hg0.
    wp_run; try no_fault Hnf; try labels_total.
    + apply Z.eqb_eq in Heqb.
      assert (yielded w0 = k) as Hyk.
      { destruct (decide (yielded w0 = k)); [done|].
        destruct (Hj (yielded w0)); [lia|done]. }
      split; [done|]. split; [displayed_tac Hd0|simpl; lia].
    + apply Z.eqb_neq in Heqb.
      assert (yielded w0 ≠ k) as Hyk.
      { intros Heq. apply Heqb. rewrite Heq. exact Hk. }
      split; [displayed_tac Hd0|simpl; lia].
Qed.
End quit.

Lemma elem_of_calls_for c i tr : i ∈ calls_for c tr ↔ (c, i) ∈ tr.
Proof.
  unfold calls_for. rewrite list_elem_of_fmap. split.
  - intros ([c' i'] & -> & [Hc Hin]%list_elem_of_filter); simpl in *.
    by subst.
  - intros Hin. exists (c, i). split; [done|].
    by apply list_elem_of_filter.
Qed.

Section quit_run.
Context `{Collaborators}.

Lemma process_video_quit k v wts src tgt conf iou :
  (∀ c i, (i ≤ k)%nat → faults c i = None) →
  truthy tgt = false → video_file src = Some v →
  (k < length (frames v))%nat →
  quits k → (∀ j, (j < k)%nat → ¬ quits j) →
  wp (process_video wts src tgt conf iou)
     (λ r w, r = Ok tt ∧ yielded w = S k ∧
             calls_for CNext (trace w) = seq 0 (S k) ∧
             calls_for CUpdate (trace w) = seq 0 (S k) ∧
             calls_for CImshow (trace w) = seq 0 (S k) ∧
             calls_for (CWaitKey 1) (trace w) = seq 0 (S k) ∧
             calls_for CDestroyAllWindows (trace w) = [k] ∧
             last (trace w) = Some (CDestroyAllWindows, k) ∧
             windows w = []) init_world.
Proof.
  intros Hnf Htgt Hv Hn Hk Hj. unfold process_video.
  wp_run; try no_fault Hnf; try congruence.
  assert (v0 = v) as -> by congruence.
  eapply wp_mono; [|apply (display_loop_quit k); try done; simpl; lia].
  intros r w (-> & (H1 & H2 & H3 & H4 & H5) & Hy).
  wp_run; rewrite Hy in *; simpl in *; try no_fault Hnf.
  rewrite !calls_for_snoc, last_snoc; simpl. rewrite !app_nil_r.
  by rewrite H1, H2, H3, H4, H5.
Qed.

Lemma display_loop_stop n g model conf iou w :
  (∀ c i, faults c i = None) →
  calls_for CNext (trace w) = seq 0 (yielded w) →
  (∀ j, (j < yielded w)%nat → ¬ quits j) →
  (yielded w + length g)%nat = n →
  wp (for_frames g (display_body model () () conf iou))
     (λ r w', r = Ok tt ∧ stopped_at n w') w.
Proof.
  intros Hnf Hc Hq Hg.
  apply (wp_for_frames (λ g w,
           calls_for CNext (trace w) = seq 0 (yielded w) ∧
           (∀ j, (j < yielded w)%nat → ¬ quits j) ∧
           (yielded w + length g)%nat = n)); [| |done].
  - intros w0 (Hc0 & Hq0 & Hg0); simpl in Hg0.
    wp_run; try no_fault Hnf. split; [done|].
    unfold stopped_at; simpl.
    exists (yielded w0). rewrite calls_for_snoc; simpl.
    split; [by apply seq_snoc|]. split; [lia|]. split; [done|lia].
  - intros f g0 w0 (Hc0 & Hq0 & Hg0); simpl in Hg0.
    wp_run; try no_fault Hnf; try labels_total.
    + apply Z.eqb_eq in Heqb. split; [done|].
      unfold stopped_at; simpl.
      exists (yielded w0). rewrite !calls_for_snoc; simpl.
      rewrite !app_nil_r. split; [by apply seq_snoc|].
      split; [lia|]. by split.
    + apply Z.eqb_neq in Heqb.
      rewrite !calls_for_snoc; simpl. rewrite !app_nil_r.
      split; [by apply seq_snoc|]. split; [|lia].
      intros j Hlt. destruct (decide (j = yielded w0)) as [->|];
        [done|apply Hq0; lia].
Qed.

Lemma process_video_stop v wts src tgt conf iou :
  (∀ c i, faults c i = None) →
  truthy tgt = false → video_file src = Some v →
  wp (process_video wts src tgt conf iou)
     (λ r w, r = Ok tt ∧ stopped_at (length (frames v)) w) init_world.
Proof.
  intros Hnf Htgt Hv. unfold process_video.
  wp_run; try no_fault Hnf; try congruence.
  assert (v0 = v) as -> by congruence.
  eapply wp_mono;
    [|apply (display_loop_stop (length (frames v)));
      [done|done|simpl; lia|done]].
  intros r w (-> & m & Hc & Hm). wp_run; try no_fault Hnf.
  split; [done|]. unfold stopped_at; simpl.
  exists m. rewrite calls_for_snoc; simpl.
  by rewrite app_nil_r.
Qed.
End quit_run.

(** * The claims *)

(** C1: every detection in the set the tracker's update returns carries
    a track identifier: the identifier column is present and as long as
    the set.  The detections the tracker could not pair with a track
    are left out of the output instead of being passed on without an
    identifier.  Hence in every run, each label handed to the annotator
    prints the identifier of its detection, never an absent one. *)
Theorem tracker_output_identified `{Collaborators} (s : ByteTrack) (d : Detections)
    (wts src : string) (tgt : option string) (conf iou : Q) :
  (∃ ids, tracker_id (update_with_detections s d).1 = Some ids ∧
          length ids = len (update_with_detections s d).1) ∧
  (∃ assigned : list (option Z),
      length assigned = len d ∧
      xyxy (update_with_detections s d).1 = pick assigned (xyxy d) ∧
      tracker_id (update_with_detections s d).1 = Some (omap id assigned)) ∧
  Forall (λ a : loc * Detections * list string, labels_identified a.1.2 a.2)
    (annotated (process_video wts src tgt conf iou init_world).2).
Proof.
  split; [apply update_with_detections_ids|]. split.
  - destruct (update_with_detections_columns s d)
      as (ids & Hl & Hx & _ & _ & _ & Ht).
    by exists ids.
  - destruct (process_video_annotated wts src tgt conf iou) as [_ Hall].
    eapply Forall_impl; [exact Hall|]. by intros a [_ Ha].
Qed.

(** C2: in every run, each detection set the tracker's update is called
    with has every class identifier equal to the one value 0, whatever
    classes the model reported; the log of these sets has one entry per
    call of the update. *)
Theorem class_id_overridden `{Collaborators}
    (wts src : string) (tgt : option string) (conf iou : Q) :
  length (tracked (process_video wts src tgt conf iou init_world).2) =
  length (calls_for CUpdate
            (trace (process_video wts src tgt conf iou init_world).2)) ∧
  Forall single_class
    (tracked (process_video wts src tgt conf iou init_world).2).
Proof. apply process_video_tracked. Qed.

(** C3: [process_frame] leaves the samples of its input frame as they
    were: the annotator paints a copy, and the frame returned is that
    new array, not the input. *)
Theorem annotation_keeps_frame `{Collaborators} (frame : loc) (model : string)
    (conf iou : Q) (w : World) (px : pixels) :
  heap w !! frame = Some px →
  heap (process_frame frame model () () conf iou w).2 !! frame = Some px ∧
  match (process_frame frame model () () conf iou w).1 with
  | Ok scene =>
      scene ≠ frame ∧
      is_Some (heap (process_frame frame model () () conf iou w).2 !! scene)
  | Raise _ => True
  end.
Proof.
  intros Hpx.
  destruct (process_frame_heap frame model () () conf iou w) as [Hpre Hr].
  split; [by eapply prefix_lookup_Some|].
  destruct (process_frame frame model () () conf iou w).1 as [scene|e];
    [|done].
  destruct Hr as [-> Hs]. split; [|done].
  apply lookup_lt_Some in Hpx. lia.
Qed.

Lemma annotation_keeps_frame_witness :
  heap demo_world !! 0%nat = Some demo_frame ∧
  heap (@process_frame (demo no_fault no_key []) 0%nat "w.pt" () ()
          (3 # 10) (7 # 10) demo_world).2 !! 0%nat = Some demo_frame.
Proof.
  split; [reflexivity|].
  apply (@annotation_keeps_frame (demo no_fault no_key [])). reflexivity.
Defined.

(** C4: in every run of [process_video], with a target path or
    without, the tracker's update is called once for each frame the
    generator yielded, in the order of the frames, none skipped and
    none twice; only a run that an exception aborts before the tracker
    is reached leaves the frame it was working on without its update.
    And the fetch of frame n + 1 comes right after the write, or the
    display poll, of frame n has returned. *)
Theorem tracker_updated_once_per_frame `{Collaborators}
    (wts src : string) (tgt : option string) (conf iou : Q) :
  (calls_for CUpdate (trace (process_video wts src tgt conf iou init_world).2) =
     seq 0 (yielded (process_video wts src tgt conf iou init_world).2) ∨
   (is_raise (process_video wts src tgt conf iou init_world).1 = true ∧
    ∃ m, yielded (process_video wts src tgt conf iou init_world).2 = S m ∧
         calls_for CUpdate
           (trace (process_video wts src tgt conf iou init_world).2) =
         seq 0 m)) ∧
  no_prefetch (trace (process_video wts src tgt conf iou init_world).2).
Proof. apply process_video_order. Qed.

(** C5: with a target path, once the video writer is acquired its
    [__exit__] is called exactly once, as the last call of the run,
    whatever call raised in between, and the writer is then released
    unless that very call raised; and the writer is acquired whenever
    [__enter__] returned. *)
Theorem writer_released_on_every_exit `{Collaborators}
    (wts src : string) (tgt : option string) (conf iou : Q) :
  truthy tgt = true →
  release_ok (process_video wts src tgt conf iou init_world).2.
Proof. apply process_video_release. Qed.

Lemma writer_released_on_every_exit_witness :
  truthy (Some "out.mp4") = true ∧
  release_ok (H := demo fault_on_second no_key (replicate 3 demo_frame))
    (@process_video (demo fault_on_second no_key (replicate 3 demo_frame))
       "w.pt" "in.mp4" (Some "out.mp4") (3 # 10) (7 # 10) init_world).2.
Proof.
  split; [reflexivity|].
  apply (@writer_released_on_every_exit
           (demo fault_on_second no_key (replicate 3 demo_frame))).
  reflexivity.
Defined.

(** With a target path and a detector that fails on the second frame:
    the exception reaches the caller, and the writer holds the first
    frame and is released. *)
Example file_run_released :
  let out := @process_video (demo fault_on_second no_key (replicate 3 demo_frame))
               "w.pt" "in.mp4" (Some "out.mp4") (3 # 10) (7 # 10) init_world in
  out.1 = Raise DetectionFailure ∧
  (released <$> sink out.2) = Some true ∧
  (length ∘ written <$> sink out.2) = Some 1%nat.
Proof. vm_compute. by repeat split. Qed.

(** Without failure, every frame of the video is written, each with
    the single box the tracker follows, labelled by the first
    identifier. *)
Example file_run_labels :
  let out := @process_video (demo no_fault no_key (replicate 3 demo_frame))
               "w.pt" "in.mp4" (Some "out.mp4") (3 # 10) (7 # 10) init_world in
  out.1 = Ok tt ∧
  (length ∘ written <$> sink out.2) = Some 3%nat ∧
  snd <$> annotated out.2 = [["#1"]; ["#1"]; ["#1"]].
Proof. vm_compute. by repeat split. Qed.

(** C6: without a target path, an exception raised while a frame is
    processed reaches the caller, but the display is not torn down:
    here the detector fails on the second frame, the window opened for
    the first frame stays open and [cv2.destroyAllWindows] is never
    called, where the same failure with a target path releases the
    writer. *)
Theorem display_left_open_on_error :
  let shown_run := @process_video
                     (demo fault_on_second no_key (replicate 3 demo_frame))
                     "w.pt" "in.mp4" None (3 # 10) (7 # 10) init_world in
  shown_run.1 = Raise DetectionFailure ∧
  windows shown_run.2 = ["Processed Video"] ∧
  calls_for CDestroyAllWindows (trace shown_run.2) = [] ∧
  calls_for CImshow (trace shown_run.2) = [0%nat].
Proof. vm_compute. by repeat split. Qed.

(** C7: without a target path, when no call fails and the key read at
    the poll of frame k is the first with the low byte of [q], k being
    within the video: the run returns without an exception; frames 0 to
    k were fetched, tracked, displayed and polled, once each, the poll
    waiting 1 ms; no further frame was fetched; and the last call
    destroyed the windows, none of which is left open. *)
Theorem quit_key_ends_display_loop `{Collaborators} (k : nat) (v : Video)
    (wts src : string) (tgt : option string) (conf iou : Q) :
  (∀ c i, (i ≤ k)%nat → faults c i = None) →
  truthy tgt = false →
  video_file src = Some v →
  (k < length (frames v))%nat →
  quits k →
  (∀ j, (j < k)%nat → ¬ quits j) →
  (process_video wts src tgt conf iou init_world).1 = Ok tt ∧
  yielded (process_video wts src tgt conf iou init_world).2 = S k ∧
  calls_for CNext (trace (process_video wts src tgt conf iou init_world).2)
    = seq 0 (S k) ∧
  calls_for CUpdate (trace (process_video wts src tgt conf iou init_world).2)
    = seq 0 (S k) ∧
  calls_for CImshow (trace (process_video wts src tgt conf iou init_world).2)
    = seq 0 (S k) ∧
  calls_for (CWaitKey 1)
    (trace (process_video wts src tgt conf iou init_world).2) = seq 0 (S k) ∧
  calls_for CDestroyAllWindows
    (trace (process_video wts src tgt conf iou init_world).2) = [k] ∧
  last (trace (process_video wts src tgt conf iou init_world).2)
    = Some (CDestroyAllWindows, k) ∧
  windows (process_video wts src tgt conf iou init_world).2 = [].
Proof. intros. by apply (process_video_quit k v). Qed.

Lemma quit_key_ends_display_loop_witness :
  let C := demo no_fault q_on_third (replicate 10 demo_frame) in
  (@process_video C "w.pt" "in.mp4" None (3 # 10) (7 # 10) init_world).1 = Ok tt ∧
  yielded (@process_video C "w.pt" "in.mp4" None (3 # 10) (7 # 10) init_world).2
    = 3%nat.
Proof.
  intros C.
  destruct (@quit_key_ends_display_loop C 2
              {| info := {| width := 2; height := 2; fps := 25;
                            total_frames := 10 |};
                 frames := replicate 10 demo_frame |}
              "w.pt" "in.mp4" None (3 # 10) (7 # 10))
    as (Hr & Hy & _).
  - reflexivity.
  - reflexivity.
  - reflexivity.
  - simpl. lia.
  - reflexivity.
  - intros [|[|j]] Hj; [discriminate|discriminate|lia].
  - split; [exact Hr|exact Hy].
Defined.

(** C8: in every run, each call of the annotator receives as many
    labels as the detection set has detections, and the label at index
    i is [#] followed by the track identifier of the detection at index
    i; the log of these calls has one entry per call. *)
Theorem labels_align_with_detections `{Collaborators}
    (wts src : string) (tgt : option string) (conf iou : Q) :
  length (annotated (process_video wts src tgt conf iou init_world).2) =
  length (calls_for CAnnotate
            (trace (process_video wts src tgt conf iou init_world).2)) ∧
  Forall (λ a : loc * Detections * list string, labels_match a.1.2 a.2)
    (annotated (process_video wts src tgt conf iou init_world).2).
Proof.
  destruct (process_video_annotated wts src tgt conf iou) as [Hl Hall].
  split; [done|]. eapply Forall_impl; [exact Hall|]. by intros a [Ha _].
Qed.

(** C9: on the samples of one frame, for thresholds 0 <= t1 < t2 <= 1,
    the detections found at t2 are among the detections found at t1:
    iterating over them yields a subsequence of the rows, hence a
    subset. *)
Theorem confidence_filter_antitone `{Collaborators} (model : string)
    (px : pixels) (t1 t2 iou : Q) :
  (0 <= t1)%Q → (t1 < t2)%Q → (t2 <= 1)%Q →
  ∃ rows1 rows2,
    Detections_iter (detected model px t1 iou) = Ok rows1 ∧
    Detections_iter (detected model px t2 iou) = Ok rows2 ∧
    rows2 `sublist_of` rows1 ∧ rows2 ⊆ rows1.
Proof.
  intros _ Hlt _. unfold detected.
  exists (row_of <$> predict (network model px) t1 iou),
         (row_of <$> predict (network model px) t2 iou).
  rewrite !iter_from_ultralytics. split; [done|]. split; [done|].
  assert (row_of <$> predict (network model px) t2 iou `sublist_of`
          row_of <$> predict (network model px) t1 iou) as Hsub.
  { rewrite (predict_threshold _ t1 t2 iou Hlt).
    apply fmap_sublist, filter_sublist. }
  split; [done|]. by apply sublist_subseteq.
Qed.

Lemma confidence_filter_antitone_witness :
  ∃ rows1 rows2,
    Detections_iter (@detected (demo no_fault no_key []) "w.pt" demo_frame
                       (3 # 10) (7 # 10)) = Ok rows1 ∧
    Detections_iter (@detected (demo no_fault no_key []) "w.pt" demo_frame
                       (5 # 10) (7 # 10)) = Ok rows2 ∧
    rows2 `sublist_of` rows1 ∧ rows2 ⊆ rows1.
Proof.
  apply (@confidence_filter_antitone (demo no_fault no_key [])).
  - unfold Qle; simpl; lia.
  - unfold Qlt; simpl; lia.
  - unfold Qle; simpl; lia.
Defined.

(** C10: without a target path and when no call fails, the loop goes
    on past frame k, to ask the generator for the next frame, exactly
    when none of the keys read at the polls of frames 0 to k has the
    low byte of [q]; in particular a poll that times out, which reads
    -1, does not quit. *)
Theorem quit_key_is_low_byte_q `{Collaborators} (v : Video)
    (wts src : string) (tgt : option string) (conf iou : Q) :
  (∀ c i, faults c i = None) →
  truthy tgt = false →
  video_file src = Some v →
  (∀ k, (k < length (frames v))%nat →
     ((CNext, S k) ∈ trace (process_video wts src tgt conf iou init_world).2 ↔
      ∀ j, (j ≤ k)%nat → ¬ quits j)) ∧
  (∀ j, keyboard j = -1 → ¬ quits j).
Proof.
  intros Hnf Htgt Hv. split.
  - destruct (process_video_stop v wts src tgt conf iou Hnf Htgt Hv)
      as (_ & m & Hc & Hm & Hq & Hstop).
    intros k Hk. rewrite <- elem_of_calls_for, Hc, elem_of_seq. split.
    + intros [_ Hlt] j Hj. apply Hq. lia.
    + intros Hj. split; [lia|].
      destruct (decide (m ≤ k)%nat) as [Hle|]; [|lia].
      destruct (Hj m Hle). apply Hstop. lia.
  - intros j Hj. unfold quits. rewrite Hj. discriminate.
Qed.

Lemma quit_key_is_low_byte_q_witness :
  let C := demo no_fault q_on_third (replicate 10 demo_frame) in
  (CNext, 2%nat) ∈
    trace (@process_video C "w.pt" "in.mp4" None (3 # 10) (7 # 10) init_world).2 ∧
  (CNext, 3%nat) ∉
    trace (@process_video C "w.pt" "in.mp4" None (3 # 10) (7 # 10) init_world).2.
Proof.
  intros C.
  destruct (@quit_key_is_low_byte_q C
              {| info := {| width := 2; height := 2; fps := 25;
                            total_frames := 10 |};
                 frames := replicate 10 demo_frame |}
              "w.pt" "in.mp4" None (3 # 10) (7 # 10))
    as [Hiff _]; [reflexivity..|].
  split.
  - apply (Hiff 1%nat); [simpl; lia|].
    intros [|[|j]] Hj; [discriminate|discriminate|lia].
  - intros Hin.
    assert (2 < length (replicate 10 demo_frame))%nat as Hlt by (simpl; lia).
    destruct (Hiff 2%nat Hlt) as [Hto _].
    by apply (Hto Hin 2%nat).
Defined.

(** * Further properties of the program *)

(** ** One sink, never both *)

Ltac never_tac :=
  unfold nothing_started, never_displayed, never_written in *; simpl;
  repeat match goal with H : _ ∧ _ |- _ => destruct H end;
  repeat split; intros;
  rewrite ?calls_for_snoc; simpl; rewrite ?app_nil_r;
  try congruence; auto.

Section one_sink.
Context `{Collaborators}.

Lemma process_video_never_displayed wts src tgt conf iou :
  truthy tgt = true →
  wp (process_video wts src tgt conf iou) (λ _ w, never_displayed w) init_world.
Proof.
  intros Htgt. unfold process_video. wp_run; try congruence.
  7: { eapply wp_mono;
         [|apply (wp_for_frames_stable never_displayed);
           [intros; never_tac..|intros ? ? ?; wp_run; never_tac|never_tac]].
       intros r w Hw; simpl in Hw. wp_run; never_tac. }
  all: never_tac.
Qed.

Lemma process_video_never_written wts src tgt conf iou :
  truthy tgt = false →
  wp (process_video wts src tgt conf iou) (λ _ w, never_written w) init_world.
Proof.
  intros Htgt. unfold process_video. wp_run; try congruence.
  6: { eapply wp_mono;
         [|apply (wp_for_frames_stable never_written);
           [intros; never_tac..|intros ? ? ?; wp_run; never_tac|never_tac]].
       intros [[]|e] w Hw; simpl in Hw; wp_run; never_tac. }
  all: never_tac.
Qed.
End one_sink.

(** ** Failures before the loop *)

Section setup.
Context `{Collaborators}.

Lemma process_video_setup_failure wts src tgt conf iou :
  (∃ c, c ∈ setup_calls ∧ faults c 0 ≠ None) ∨ video_file src = None →
  wp (process_video wts src tgt conf iou)
     (λ r w, is_raise r = true ∧ nothing_started w) init_world.
Proof.
  intros Hsetup. unfold process_video. wp_run.
  all: first
    [ by (split; [done|never_tac])
    | exfalso; destruct Hsetup as [(c & Hc & Hf)|Hv]; [|congruence];
      unfold setup_calls in Hc;
      repeat (apply elem_of_cons in Hc as [->|Hc]; [congruence|]);
      by apply elem_of_nil in Hc ].
Qed.
End setup.

(** ** After a failure *)

Lemma halted_snoc `{Collaborators} tr e :
  Forall (λ e : event, faults e.1 e.2 = None) tr →
  ∃ pre tail, tr ++ [e] = pre ++ tail ∧
    Forall (λ e : event, faults e.1 e.2 = None) pre ∧
    (tail = [] ∨ (∃ e, tail = [e]) ∨ (∃ e i, tail = [e; (CSinkExit, i)])).
Proof. intros Htr. exists tr, [e]. split; [done|]. split; [done|]. eauto. Qed.

Lemma halted_returned `{Collaborators} w : all_returned w → halted w.
Proof.
  intros Hw. exists (trace w), []. rewrite app_nil_r.
  split; [done|]. split; [done|]. by left.
Qed.


Lemma halted_removelast `{Collaborators} w :
  Forall (λ e : event, faults e.1 e.2 = None) (removelast (trace w)) →
  halted w.
Proof.
  intros Hpre. destruct (trace w) as [|e0 tr] eqn:Etr.
  - exists [], []. rewrite Etr. split; [done|]. split; [done|]. by left.
  - exists (removelast (e0 :: tr)), [List.last (e0 :: tr) e0].
    rewrite Etr. split; [by apply app_removelast_last|].
    split; [done|]. eauto.
Qed.

Ltac halted_loop_tac Hw :=
  unfold halted_loop; simpl;
  first
    [ returned_tac Hw
    | eexists _, [_]; split; [reflexivity|]; split;
      [returned_tac Hw|by right; eexists] ].

Section halting.
Context `{Collaborators}.

Lemma loop_halted g body w :
  (∀ w0 frame, all_returned w0 →
     wp (body frame) (λ r w', match r with
                              | Ok _ => all_returned w'
                              | Raise _ =>
                                  ∃ pre e, trace w' = pre ++ [e] ∧
                                    Forall (λ e : event, faults e.1 e.2 = None) pre
                              end) w0) →
  all_returned w →
  wp (for_frames g body) halted_loop w.
Proof.
  intros Hbody. apply (wp_for_frames (λ _ w, all_returned w)).
  - intros w0 Hw. wp_run; halted_loop_tac Hw.
  - intros f g0 w0 Hw. wp_run; [halted_loop_tac Hw|].
    eapply wp_mono; [|apply Hbody; returned_tac Hw].
    intros [[|]|e] w' Hw'; try done.
    destruct Hw' as (pre & e' & Htr & Hpre).
    exists pre, [e']. split; [done|]. split; [done|]. right. by eexists.
Qed.

Lemma file_body_halted model conf iou frame w0 :
  all_returned w0 →
  wp (file_body model () () conf iou () frame)
     (λ r w', match r with
              | Ok _ => all_returned w'
              | Raise _ =>
                  ∃ pre e, trace w' = pre ++ [e] ∧
                    Forall (λ e : event, faults e.1 e.2 = None) pre
              end) w0.
Proof.
  intros Hw. wp_run.
  all: first [ returned_tac Hw
             | eexists _, _; split; [reflexivity|returned_tac Hw] ].
Qed.

Lemma display_body_halted model conf iou frame w0 :
  all_returned w0 →
  wp (display_body model () () conf iou frame)
     (λ r w', match r with
              | Ok _ => all_returned w'
              | Raise _ =>
                  ∃ pre e, trace w' = pre ++ [e] ∧
                    Forall (λ e : event, faults e.1 e.2 = None) pre
              end) w0.
Proof.
  intros Hw. wp_run.
  all: first [ returned_tac Hw
             | eexists _, _; split; [reflexivity|returned_tac Hw] ].
Qed.

Lemma process_video_halted wts src tgt conf iou :
  wp (process_video wts src tgt conf iou) (λ _ w, halted w) init_world.
Proof.
  unfold process_video. wp_run.
  7: { eapply wp_mono; [|apply loop_halted].
       - intros r w Hr. wp_run.
         all: destruct r as [[]|e0]; simpl in Hr.
         all: try (apply halted_snoc; exact Hr).
         all: destruct Hr as (pre & tail & Htr & Hpre & [->|[e1 ->]]).
         all: unfold halted; simpl; rewrite Htr.
         all: try (rewrite app_nil_r; exists pre, [(CSinkExit, pred (yielded w))];
                   split; [done|]; split; [done|]; eauto).
         all: exists pre, [e1; (CSinkExit, pred (yielded w))];
              rewrite <- app_assoc; split; [done|]; split; [done|]; eauto.
       - intros w0 frame. apply file_body_halted.
       - unfold all_returned; simpl. by repeat constructor. }
  7: { eapply wp_mono; [|apply loop_halted].
       - intros [[]|e0] w Hr; simpl in Hr.
         + wp_run; by apply halted_snoc.
         + destruct Hr as (pre & tail & Htr & Hpre & Htail).
           exists pre, tail. split; [done|]. split; [done|].
           destruct Htail as [->|[e1 ->]]; eauto.
       - intros w0 frame. apply display_body_halted.
       - unfold all_returned; simpl. by repeat constructor. }
  all: apply halted_removelast; simpl; by repeat constructor.
Qed.
End halting.

(** ** One tracker for the whole run *)

Ltac threaded_tac Hw :=
  unfold tracker_threaded, tracker_after in *; simpl;
  first
    [ exact Hw
    | by rewrite fold_left_app, <- Hw
    | left; first [exact Hw | by rewrite fold_left_app, <- Hw]
    | right; split; [done|]; eexists _, _; split; [reflexivity|exact Hw] ].

Section threading.
Context `{Collaborators}.

Lemma loop_threaded g body w :
  (∀ w0 frame, tracker w0 = tracker_after (tracked w0) →
     wp (body frame) (λ r w', match r with
                              | Ok _ => tracker w' = tracker_after (tracked w')
                              | Raise _ => tracker_threaded r w'
                              end) w0) →
  tracker w = tracker_after (tracked w) →
  wp (for_frames g body) tracker_threaded w.
Proof.
  intros Hbody.
  apply (wp_for_frames (λ _ w, tracker w = tracker_after (tracked w))).
  - intros w0 Hw. wp_run; threaded_tac Hw.
  - intros f g0 w0 Hw. wp_run; [threaded_tac Hw|].
    eapply wp_mono; [|apply Hbody; exact Hw].
    intros [[|]|e] w' Hw'; try done. by left.
Qed.

Lemma tracker_threaded_after {A B} (r : result A) (r' : result B) w w' :
  tracker_threaded r w →
  (is_raise r = true → is_raise r' = true) →
  tracker w' = tracker w → tracked w' = tracked w →
  tracker_threaded r' w'.
Proof.
  unfold tracker_threaded. intros [Hw|(Hr & ds & d & Htd & Hw)] Hrr -> ->.
  - by left.
  - right. split; [by apply Hrr|]. by exists ds, d.
Qed.

Lemma process_video_threaded wts src tgt conf iou :
  wp (process_video wts src tgt conf iou) tracker_threaded init_world.
Proof.
  unfold process_video. wp_run.
  7: { eapply wp_mono; [|apply loop_threaded].
       - intros r w Hr. wp_run.
         all: eapply (tracker_threaded_after r); [exact Hr| |done|done].
         all: by destruct r.
       - intros w0 frame Hw. wp_run. all: threaded_tac Hw.
       - done. }
  7: { eapply wp_mono; [|apply loop_threaded].
       - intros [[]|e] w Hr; [|done]. wp_run.
         all: by eapply (tracker_threaded_after (Ok tt)); [exact Hr|..].
       - intros w0 frame Hw. wp_run. all: threaded_tac Hw.
       - done. }
  all: by left.
Qed.
End threading.

(** ** What reaches the sink *)

Section rendering.
Context `{Collaborators}.

Lemma zip_with_render_more done g ann :
  length done = length ann →
  zip_with render (done ++ g) ann = zip_with render done ann.
Proof.
  intros Hl. rewrite zip_with_app_l, Hl, take_ge, drop_ge by lia.
  by rewrite zip_with_nil_r, app_nil_r.
Qed.

Lemma zip_with_render_snoc done f g ann a :
  length done = length ann →
  zip_with render (done ++ f :: g) (ann ++ [a]) =
  zip_with render done ann ++ [render f a].
Proof.
  intros Hl. rewrite zip_with_app by done. simpl.
  by rewrite zip_with_nil_r.
Qed.

Lemma in_order_same {A} done g out (r : result A) w :
  length done = length (annotated w) →
  out = zip_with render done (annotated w) →
  in_order (done ++ g) out r w.
Proof.
  intros Hl ->. unfold in_order, rendered.
  rewrite zip_with_render_more by done.
  split; [reflexivity|]. split; [lia|done].
Qed.

Lemma in_order_pending {A} done f g out a (r : result A) w ann :
  annotated w = ann ++ [a] →
  length done = length ann →
  out = zip_with render done ann →
  is_raise r = true →
  in_order (done ++ f :: g) out r w.
Proof.
  intros Ha Hl -> Hr. unfold in_order, rendered.
  rewrite Ha, zip_with_render_snoc by done. split; [by eexists|].
  split; [rewrite length_app; simpl; lia|]. congruence.
Qed.

Lemma in_order_next {A} done f g out a (r : result A) w ann :
  annotated w = ann ++ [a] →
  length done = length ann →
  out = zip_with render done ann ++ [render f a] →
  in_order (done ++ f :: g) out r w.
Proof.
  intros Ha Hl ->. unfold in_order, rendered.
  rewrite Ha, zip_with_render_snoc by done.
  split; [reflexivity|]. split; [lia|done].
Qed.
End rendering.

Ltac heap_simpl :=
  repeat first
    [ rewrite insert_last
    | rewrite (list_lookup_middle _ [] _ _ eq_refl) ];
  simpl.

Section file_content.
Context `{Collaborators}.

Lemma file_loop_content fs g model conf iou w :
  (∃ done s, fs = done ++ g ∧ length done = length (annotated w) ∧
             sink w = Some s ∧
             written s = zip_with render done (annotated w)) →
  wp (for_frames g (file_body model () () conf iou ()))
     (λ r w', ∃ s, sink w' = Some s ∧ in_order fs (written s) r w' ∧
                   (is_raise r = false → length (annotated w') = length fs)) w.
Proof.
  apply (wp_for_frames (λ g w, ∃ done s,
           fs = done ++ g ∧ length done = length (annotated w) ∧
           sink w = Some s ∧
           written s = zip_with render done (annotated w))).
  - intros w0 (done & s & -> & Hl & Hs & Hw). wp_run.
    all: exists s; split; [done|]; split; [by apply in_order_same|]; simpl.
    all: rewrite ?app_nil_r; done.
  - intros f g0 w0 (done & s & -> & Hl & Hs & Hw). wp_run.
    all: heap_simpl; rewrite ?Hs; simpl.
    all: try (eexists; split; [reflexivity|]; split; [|done];
              first [ by apply in_order_same
                    | by eapply in_order_pending; [simpl; reflexivity|..] ]).
    eexists (done ++ [f]), _. rewrite <- app_assoc. split; [done|].
    split; [rewrite !length_app; simpl; lia|]. split; [reflexivity|].
    simpl. rewrite Hw, zip_with_app by done. done.
Qed.

Lemma in_order_after {A B} fs out (r : result A) (r' : result B) w w' :
  in_order fs out r w →
  annotated w' = annotated w →
  (is_raise r' = false → is_raise r = false) →
  in_order fs out r' w'.
Proof.
  unfold in_order, rendered. intros (Hp & Hl & Hr) -> Hrr. auto.
Qed.

Lemma process_video_written v wts src tgt conf iou :
  truthy tgt = true → video_file src = Some v →
  wp (process_video wts src tgt conf iou)
     (λ r w, match sink w with
             | Some s =>
                 in_order (frames v) (written s) r w ∧
                 (is_raise r = false →
                  length (annotated w) = length (frames v))
             | None => is_raise r = true
             end)
     init_world.
Proof.
  intros Htgt Hv. unfold process_video. wp_run; try congruence; try done.
  assert (v0 = v) as -> by congruence.
  eapply wp_mono; [|apply (file_loop_content (frames v))].
  - intros r w (s & Hs & Hin & Hlen). wp_run; try congruence.
    all: try rewrite Hs in *; simpl in *; simplify_eq; simpl.
    all: split; [eapply in_order_after; [exact Hin|done|]|];
         destruct r; simpl; try done; auto.
  - simpl. by eexists [], _.
Qed.

(** When every call returns and the video exists, so does the run:
    building the labels never raises. *)
Lemma loop_returns g body w :
  (∀ w0 frame, wp (body frame) (λ r _, is_raise r = false) w0) →
  (∀ c i, faults c i = None) →
  wp (for_frames g body) (λ r _, r = Ok tt) w.
Proof.
  intros Hbody Hnf. apply (wp_for_frames (λ _ _, True)); [| |done].
  - intros w0 _. wp_run; [no_fault Hnf|done].
  - intros f g0 w0 _. wp_run; [no_fault Hnf|].
    eapply wp_mono; [|apply Hbody]. by intros [[|]|e] w'.
Qed.

Lemma process_video_returns v wts src tgt conf iou :
  (∀ c i, faults c i = None) → video_file src = Some v →
  wp (process_video wts src tgt conf iou) (λ r _, r = Ok tt) init_world.
Proof.
  intros Hnf Hv. unfold process_video.
  wp_run; try no_fault Hnf; try congruence.
  - eapply wp_mono; [|apply loop_returns; [|done]].
    + intros r w ->. wp_run; [no_fault Hnf|done].
    + intros w0 frame. wp_run; try no_fault Hnf; try labels_total; done.
  - eapply wp_mono; [|apply loop_returns; [|done]].
    + intros r w ->. wp_run; [no_fault Hnf|done].
    + intros w0 frame. wp_run; try no_fault Hnf; try labels_total; done.
Qed.
End file_content.

Section display_content.
Context `{Collaborators}.

Lemma display_loop_content fs g model conf iou w :
  (∃ done, fs = done ++ g ∧ length done = length (annotated w) ∧
           shown w = zip_with render done (annotated w)) →
  wp (for_frames g (display_body model () () conf iou))
     (λ r w', in_order fs (shown w') r w') w.
Proof.
  apply (wp_for_frames (λ g w, ∃ done,
           fs = done ++ g ∧ length done = length (annotated w) ∧
           shown w = zip_with render done (annotated w))).
  - intros w0 (done & -> & Hl & Hw). wp_run.
    all: by apply in_order_same.
  - intros f g0 w0 (done & -> & Hl & Hw). wp_run.
    all: heap_simpl.
    all: try (first
           [ by apply in_order_same
           | by eapply in_order_pending; [simpl; reflexivity|..]
           | by eapply in_order_next;
               [simpl; reflexivity|done|simpl; by rewrite Hw] ]).
    exists (done ++ [f]). rewrite <- app_assoc. split; [done|].
    split; [rewrite !length_app; simpl; lia|].
    simpl. by rewrite Hw, zip_with_app.
Qed.

Lemma process_video_shown v wts src tgt conf iou :
  truthy tgt = false → video_file src = Some v →
  wp (process_video wts src tgt conf iou)
     (λ r w, in_order (frames v) (shown w) r w) init_world.
Proof.
  intros Htgt Hv. unfold process_video. wp_run; try congruence.
  1-5: unfold in_order, rendered; simpl; rewrite zip_with_nil_r;
       split; [reflexivity|]; split; [simpl; lia|done].
  assert (v0 = v) as -> by congruence.
  eapply wp_mono; [|apply (display_loop_content (frames v))].
  - intros [[]|e] w Hin; [|done]. wp_run.
    all: by eapply in_order_after; [exact Hin|..].
  - by exists [].
Qed.
End display_content.

Section display_complete.
Context `{Collaborators}.

Lemma display_loop_complete n g model conf iou w :
  (∀ c i, faults c i = None) →
  (∀ j, (j < n)%nat → ¬ quits j) →
  (yielded w + length g)%nat = n →
  length (annotated w) = yielded w →
  wp (for_frames g (display_body model () () conf iou))
     (λ r w', r = Ok tt ∧ yielded w' = n ∧ length (annotated w') = n) w.
Proof.
  intros Hnf Hq Hg Ha.
  apply (wp_for_frames (λ g w, (yielded w + length g)%nat = n ∧
                               length (annotated w) = yielded w));
    [| |done].
  - intros w0 [Hg0 Ha0]; simpl in Hg0. wp_run; try no_fault Hnf.
    split; [done|]. simpl. lia.
  - intros f g0 w0 [Hg0 Ha0]; simpl in Hg0.
    wp_run; try no_fault Hnf; try labels_total.
    + apply Z.eqb_eq in Heqb. destruct (Hq (yielded w0)); [lia|done].
    + rewrite length_app; simpl. lia.
Qed.

Lemma process_video_played v wts src tgt conf iou :
  (∀ c i, faults c i = None) →
  truthy tgt = false → video_file src = Some v →
  (∀ j, (j < length (frames v))%nat → ¬ quits j) →
  wp (process_video wts src tgt conf iou)
     (λ r w, r = Ok tt ∧ yielded w = length (frames v) ∧
             length (annotated w) = length (frames v) ∧ windows w = [])
     init_world.
Proof.
  intros Hnf Htgt Hv Hq. unfold process_video.
  wp_run; try no_fault Hnf; try congruence.
  assert (v0 = v) as -> by congruence.
  eapply wp_mono;
    [|apply (display_loop_complete (length (frames v))); done].
  intros r w (-> & Hy & Ha). wp_run; try no_fault Hnf. done.
Qed.
End display_complete.

(** ** The decoded frames are never written to *)

Lemma frames_intact_same fs w w' :
  heap w' = heap w → yielded w' = yielded w →
  frames_intact fs w → frames_intact fs w'.
Proof. unfold frames_intact. intros -> ->. auto. Qed.

Lemma frames_intact_step done f g w0 w2 :
  frames_intact (done ++ f :: g) w0 →
  length done = yielded w0 →
  length (heap w0) = (2 * yielded w0)%nat →
  heap w0 ++ [f] `prefix_of` heap w2 →
  yielded w2 = S (yielded w0) →
  frames_intact (done ++ f :: g) w2.
Proof.
  intros Hin Hd Hh Hpre Hy i f0 Hi Hf. rewrite Hy in Hi.
  eapply prefix_lookup_Some; [|exact Hpre].
  destruct (decide (i = yielded w0)) as [->|Hne].
  - rewrite list_lookup_middle in Hf by done.
    rewrite list_lookup_middle by lia. done.
  - apply lookup_app_l_Some, Hin; [lia|done].
Qed.

Section intact.
Context `{Collaborators}.

Lemma loop_intact fs g body w :
  (∀ w0 frame,
     wp (body frame)
        (λ r w', heap w0 `prefix_of` heap w' ∧ yielded w' = yielded w0 ∧
                 (is_raise r = false → length (heap w') = S (length (heap w0))))
        w0) →
  (∃ done, fs = done ++ g ∧ length done = yielded w ∧
           length (heap w) = (2 * yielded w)%nat ∧ frames_intact fs w) →
  wp (for_frames g body) (λ _ w', frames_intact fs w') w.
Proof.
  intros Hbody.
  apply (wp_for_frames (λ g w, ∃ done,
           fs = done ++ g ∧ length done = yielded w ∧
           length (heap w) = (2 * yielded w)%nat ∧ frames_intact fs w)).
  - intros w0 (done & -> & Hd & Hh & Hin). wp_run.
    all: by eapply frames_intact_same; [..|exact Hin].
  - intros f g0 w0 (done & -> & Hd & Hh & Hin). wp_run.
    { by eapply frames_intact_same; [..|exact Hin]. }
    eapply wp_mono; [|apply Hbody]. simpl.
    intros r w2 (Hpre & Hy & Hlen).
    assert (frames_intact (done ++ f :: g0) w2) as Hin2
      by by eapply frames_intact_step.
    destruct r as [[|]|e]; try done.
    exists (done ++ [f]). rewrite <- app_assoc. split; [done|].
    split; [rewrite length_app; simpl; lia|]. split; [|done].
    rewrite Hlen, length_app by done. simpl. lia.
Qed.

Lemma file_body_heap model conf iou frame w0 :
  wp (file_body model () () conf iou () frame)
     (λ r w', heap w0 `prefix_of` heap w' ∧ yielded w' = yielded w0 ∧
              (is_raise r = false → length (heap w') = S (length (heap w0))))
     w0.
Proof.
  wp_run. all: heap_simpl.
  all: split; [by repeat apply prefix_app_r|].
  all: split; [done|]; try done.
  intros _. rewrite length_app. simpl. lia.
Qed.

Lemma display_body_heap model conf iou frame w0 :
  wp (display_body model () () conf iou frame)
     (λ r w', heap w0 `prefix_of` heap w' ∧ yielded w' = yielded w0 ∧
              (is_raise r = false → length (heap w') = S (length (heap w0))))
     w0.
Proof.
  wp_run. all: heap_simpl.
  all: split; [by repeat apply prefix_app_r|].
  all: split; [done|]; try done.
  all: intros _; rewrite length_app; simpl; lia.
Qed.

Lemma process_video_intact v wts src tgt conf iou :
  video_file src = Some v →
  wp (process_video wts src tgt conf iou)
     (λ _ w, frames_intact (frames v) w) init_world.
Proof.
  intros Hv. unfold process_video. wp_run; try congruence.
  all: try (intros i f Hi; simpl in Hi; lia).
  - assert (v0 = v) as -> by congruence.
    eapply wp_mono; [|apply (loop_intact (frames v))].
    + intros r w Hin. wp_run.
      all: by eapply frames_intact_same; [..|exact Hin].
    + intros w0 frame. apply file_body_heap.
    + exists []. repeat split; try done. intros i f Hi; simpl in Hi; lia.
  - assert (v0 = v) as -> by congruence.
    eapply wp_mono; [|apply (loop_intact (frames v))].
    + intros [[]|e] w Hin; [|done]. wp_run.
      all: by eapply frames_intact_same; [..|exact Hin].
    + intros w0 frame. apply display_body_heap.
    + exists []. repeat split; try done. intros i f Hi; simpl in Hi; lia.
Qed.
End intact.


(** ** Labels and identifiers *)

(** X12: in the labels built for a detection set, two detections that
    have track identifiers get the same label exactly when they have
    the same identifier. *)
Theorem labels_distinguish_tracks d ls i j z1 z2 :
  make_labels d = Ok ls →
  (i < len d)%nat → (j < len d)%nat →
  tracker_id_at d i = Some z1 → tracker_id_at d j = Some z2 →
  (ls !! i = ls !! j ↔ z1 = z2).
Proof.
  intros [_ Hat]%make_labels_inv Hi Hj H1 H2.
  rewrite (Hat i Hi), (Hat j Hj), H1, H2; simpl. split.
  - intros Heq. simplify_eq/=. by apply pretty_Z_inj.
  - by intros ->.
Qed.

Lemma labels_distinguish_tracks_witness :
  let d := {| xyxy := [unit_box; far_box]; mask := None; confidence := None;
              class_id := None; tracker_id := Some [1; 2] |} in
  ["#1"; "#2"] !! 0%nat = ["#1"; "#2"] !! 1%nat ↔ 1 = 2.
Proof.
  intros d.
  apply (labels_distinguish_tracks d ["#1"; "#2"] 0 1 1 2); subst d.
  - vm_compute. reflexivity.
  - unfold len. simpl. lia.
  - unfold len. simpl. lia.
  - reflexivity.
  - reflexivity.
Defined.

(** X13: the comprehension does not look for absent identifiers: on a
    detection set with aligned columns and no identifier column, every
    label is [#None]. *)
Theorem labels_without_identifiers d :
  well_formed d → tracker_id d = None →
  make_labels d = Ok (replicate (len d) "#None").
Proof.
  intros Hwf Hnone. destruct (make_labels_total d Hwf) as [ls Hls].
  rewrite Hls. f_equal. destruct (make_labels_inv d ls Hls) as [Hlen Hat].
  apply list_eq_same_length with (len d);
    [by rewrite length_replicate|done|].
  intros i x y Hi Hx Hy. rewrite (Hat i Hi) in Hx.
  apply lookup_replicate in Hy as [-> _].
  unfold tracker_id_at in Hx. rewrite Hnone in Hx. by simplify_eq.
Qed.

Lemma labels_without_identifiers_witness :
  make_labels (from_ultralytics demo_raw) = Ok (replicate 3 "#None").
Proof.
  apply (labels_without_identifiers (from_ultralytics demo_raw)).
  - apply from_ultralytics_well_formed.
  - reflexivity.
Defined.

(** * Further theorems on the run *)

(** X1: with a target path, no run displays anything: [cv2.imshow],
    [cv2.waitKey] and [cv2.destroyAllWindows] are never called and no
    window is opened, whatever call fails. *)
Theorem file_run_never_displays `{Collaborators}
    (wts src : string) (tgt : option string) (conf iou : Q) :
  truthy tgt = true →
  never_displayed (process_video wts src tgt conf iou init_world).2.
Proof. apply process_video_never_displayed. Qed.

Lemma file_run_never_displays_witness :
  truthy (Some "out.mp4") = true ∧
  never_displayed
    (@process_video (demo no_fault no_key (replicate 3 demo_frame))
       "w.pt" "in.mp4" (Some "out.mp4") (3 # 10) (7 # 10) init_world).2.
Proof.
  split; [reflexivity|].
  apply (@file_run_never_displays
           (demo no_fault no_key (replicate 3 demo_frame))).
  reflexivity.
Defined.

(** X2: without a target path, and also with the empty string as
    target path, no run opens a video writer: [sv.VideoSink] is never
    entered, written to or closed, whatever call fails. *)
Theorem display_run_never_writes `{Collaborators}
    (wts src : string) (tgt : option string) (conf iou : Q) :
  tgt = None ∨ tgt = Some "" →
  never_written (process_video wts src tgt conf iou init_world).2.
Proof.
  intros Htgt. apply process_video_never_written.
  by destruct Htgt as [->| ->].
Qed.

Lemma display_run_never_writes_witness :
  never_written
    (@process_video (demo no_fault no_key (replicate 3 demo_frame))
       "w.pt" "in.mp4" (Some "") (3 # 10) (7 # 10) init_world).2.
Proof.
  apply (@display_run_never_writes
           (demo no_fault no_key (replicate 3 demo_frame))).
  right. reflexivity.
Defined.

(** X3: no exception is swallowed: if any call the run made raised,
    [process_video] raises. *)
Theorem failure_reaches_caller `{Collaborators}
    (wts src : string) (tgt : option string) (conf iou : Q) (c : call) (i : nat) :
  (c, i) ∈ trace (process_video wts src tgt conf iou init_world).2 →
  faults c i ≠ None →
  is_raise (process_video wts src tgt conf iou init_world).1 = true.
Proof.
  intros Hin Hf.
  destruct (process_video_propagated wts src tgt conf iou) as [Hr|Hall];
    [done|].
  unfold all_returned in Hall. rewrite Forall_forall in Hall.
  by destruct (Hf (Hall _ Hin)).
Qed.

Lemma failure_reaches_caller_witness :
  is_raise
    (@process_video (demo fault_on_second no_key (replicate 3 demo_frame))
       "w.pt" "in.mp4" None (3 # 10) (7 # 10) init_world).1 = true.
Proof.
  apply (@failure_reaches_caller
           (demo fault_on_second no_key (replicate 3 demo_frame))
           "w.pt" "in.mp4" None (3 # 10) (7 # 10) CPredict 1).
  - apply (bool_decide_unpack _). vm_compute. exact I.
  - discriminate.
Defined.

(** X4: a run does nothing more after a call has raised, except to
    close the video writer: every call of the run returned, but
    perhaps the last one, or the one just before the [__exit__] of the
    writer. *)
Theorem run_stops_at_failure `{Collaborators}
    (wts src : string) (tgt : option string) (conf iou : Q) :
  halted (process_video wts src tgt conf iou init_world).2.
Proof. apply process_video_halted. Qed.

(** X5: when one of the calls of lines 16 to 20 raises, or the source
    video cannot be read, [process_video] raises before anything is
    started: no frame is fetched, no writer opened, no window shown. *)
Theorem setup_failure_starts_nothing `{Collaborators}
    (wts src : string) (tgt : option string) (conf iou : Q) :
  (∃ c, c ∈ setup_calls ∧ faults c 0 ≠ None) ∨ video_file src = None →
  is_raise (process_video wts src tgt conf iou init_world).1 = true ∧
  nothing_started (process_video wts src tgt conf iou init_world).2.
Proof. apply process_video_setup_failure. Qed.

Lemma setup_failure_starts_nothing_witness :
  is_raise
    (@process_video (demo no_fault no_key (replicate 3 demo_frame))
       "w.pt" "missing.mp4" (Some "out.mp4") (3 # 10) (7 # 10) init_world).1
    = true ∧
  nothing_started
    (@process_video (demo no_fault no_key (replicate 3 demo_frame))
       "w.pt" "missing.mp4" (Some "out.mp4") (3 # 10) (7 # 10) init_world).2.
Proof.
  apply (@setup_failure_starts_nothing
           (demo no_fault no_key (replicate 3 demo_frame))).
  right. reflexivity.
Defined.

(** X6: with a target path, in every run the frames written to the
    video writer, once it is acquired, are the annotated copies of the
    first frames of the source video, in their order and without a
    gap; at most the copy annotated last was not written, and none is
    missing when the run returns.  A run that acquires no writer
    raises. *)
Theorem written_frames_in_order `{Collaborators} (v : Video)
    (wts src : string) (tgt : option string) (conf iou : Q) :
  truthy tgt = true →
  video_file src = Some v →
  match sink (process_video wts src tgt conf iou init_world).2 with
  | Some s =>
      in_order (frames v) (written s)
        (process_video wts src tgt conf iou init_world).1
        (process_video wts src tgt conf iou init_world).2
  | None => is_raise (process_video wts src tgt conf iou init_world).1 = true
  end.
Proof.
  intros Htgt Hv.
  pose proof (process_video_written v wts src tgt conf iou Htgt Hv) as Hw.
  unfold wp in Hw.
  destruct (sink (process_video wts src tgt conf iou init_world).2);
    [by destruct Hw|done].
Qed.

Lemma written_frames_in_order_witness :
  let C := demo fault_on_second no_key (replicate 3 demo_frame) in
  let out := @process_video C "w.pt" "in.mp4" (Some "out.mp4")
               (3 # 10) (7 # 10) init_world in
  match sink out.2 with
  | Some s => in_order (H := C) (frames (demo_video 3)) (written s) out.1 out.2
  | None => is_raise out.1 = true
  end.
Proof.
  intros C out.
  apply (@written_frames_in_order C (demo_video 3)); reflexivity.
Defined.

(** X7: with a target path, when every call returns and the source
    video can be read, [process_video] returns, the writer has
    received one frame for each frame of the video, the annotated
    copies in order, and it is released. *)
Theorem file_run_writes_every_frame `{Collaborators} (v : Video)
    (wts src : string) (tgt : option string) (conf iou : Q) :
  (∀ c i, faults c i = None) →
  truthy tgt = true →
  video_file src = Some v →
  (process_video wts src tgt conf iou init_world).1 = Ok tt ∧
  ∃ s, sink (process_video wts src tgt conf iou init_world).2 = Some s ∧
       written s =
         rendered (frames v) (process_video wts src tgt conf iou init_world).2 ∧
       length (written s) = length (frames v) ∧
       released s = true.
Proof.
  intros Hnf Htgt Hv.
  pose proof (process_video_returns v wts src tgt conf iou Hnf Hv) as Hr.
  pose proof (process_video_written v wts src tgt conf iou Htgt Hv) as Hw.
  pose proof (process_video_release wts src tgt conf iou Htgt) as Hx.
  unfold wp, release_ok in *. split; [done|].
  destruct (sink (process_video wts src tgt conf iou init_world).2)
    as [s|]; [|by rewrite Hr in Hw].
  exists s. split; [done|]. rewrite Hr in Hw.
  destruct Hw as [(_ & _ & Heq) Hlen]. specialize (Heq eq_refl).
  specialize (Hlen eq_refl). split; [done|]. split.
  - rewrite Heq. unfold rendered. rewrite length_zip_with. lia.
  - destruct Hx as (_ & _ & _ & Hx). by apply Hx.
Qed.

Lemma file_run_writes_every_frame_witness :
  (@process_video (demo no_fault no_key (replicate 3 demo_frame))
     "w.pt" "in.mp4" (Some "out.mp4") (3 # 10) (7 # 10) init_world).1 = Ok tt.
Proof.
  apply (@file_run_writes_every_frame
           (demo no_fault no_key (replicate 3 demo_frame)) (demo_video 3));
    [intros; reflexivity|reflexivity|reflexivity].
Defined.

(** X8: without a target path, in every run the frames handed to
    [cv2.imshow] are the annotated copies of the first frames of the
    source video, in their order and without a gap; at most the copy
    annotated last was not shown, and none is missing when the run
    returns. *)
Theorem shown_frames_in_order `{Collaborators} (v : Video)
    (wts src : string) (tgt : option string) (conf iou : Q) :
  truthy tgt = false →
  video_file src = Some v →
  in_order (frames v)
    (shown (process_video wts src tgt conf iou init_world).2)
    (process_video wts src tgt conf iou init_world).1
    (process_video wts src tgt conf iou init_world).2.
Proof. apply process_video_shown. Qed.

Lemma shown_frames_in_order_witness :
  let C := demo no_fault q_on_third (replicate 10 demo_frame) in
  let out := @process_video C "w.pt" "in.mp4" None (3 # 10) (7 # 10)
               init_world in
  in_order (H := C) (frames (demo_video 10)) (shown out.2) out.1 out.2.
Proof.
  intros C out.
  apply (@shown_frames_in_order C (demo_video 10)); reflexivity.
Defined.

(** X9: without a target path, when every call returns, the source
    video can be read and no key read during it has the low byte of
    [q], [process_video] returns after every frame of the video was
    shown, the annotated copies in order, and the windows are
    destroyed. *)
Theorem display_run_shows_every_frame `{Collaborators} (v : Video)
    (wts src : string) (tgt : option string) (conf iou : Q) :
  (∀ c i, faults c i = None) →
  truthy tgt = false →
  video_file src = Some v →
  (∀ j, (j < length (frames v))%nat → ¬ quits j) →
  (process_video wts src tgt conf iou init_world).1 = Ok tt ∧
  yielded (process_video wts src tgt conf iou init_world).2 =
    length (frames v) ∧
  shown (process_video wts src tgt conf iou init_world).2 =
    rendered (frames v) (process_video wts src tgt conf iou init_world).2 ∧
  length (shown (process_video wts src tgt conf iou init_world).2) =
    length (frames v) ∧
  windows (process_video wts src tgt conf iou init_world).2 = [].
Proof.
  intros Hnf Htgt Hv Hq.
  destruct (process_video_played v wts src tgt conf iou Hnf Htgt Hv Hq)
    as (Hr & Hy & Ha & Hw).
  pose proof (process_video_shown v wts src tgt conf iou Htgt Hv) as Hs.
  unfold wp in Hs. rewrite Hr in Hs. destruct Hs as (_ & _ & Heq).
  specialize (Heq eq_refl). repeat split; try done.
  rewrite Heq. unfold rendered. rewrite length_zip_with. lia.
Qed.

Lemma display_run_shows_every_frame_witness :
  let C := demo no_fault no_key (replicate 3 demo_frame) in
  (@process_video C "w.pt" "in.mp4" None (3 # 10) (7 # 10) init_world).1
    = Ok tt ∧
  yielded (@process_video C "w.pt" "in.mp4" None (3 # 10) (7 # 10)
             init_world).2 = 3%nat.
Proof.
  intros C.
  destruct (@display_run_shows_every_frame C (demo_video 3)
              "w.pt" "in.mp4" None (3 # 10) (7 # 10))
    as (Hr & Hy & _).
  - intros; reflexivity.
  - reflexivity.
  - reflexivity.
  - intros j _. discriminate.
  - split; [exact Hr|exact Hy].
Defined.

(** X10: in every run, the frames the generator yielded are never
    written to: when the run ends, each of them is still in the store
    with the samples it was decoded to. *)
Theorem decoded_frames_intact `{Collaborators} (v : Video)
    (wts src : string) (tgt : option string) (conf iou : Q) :
  video_file src = Some v →
  frames_intact (frames v) (process_video wts src tgt conf iou init_world).2.
Proof. apply process_video_intact. Qed.

Lemma decoded_frames_intact_witness :
  frames_intact (frames (demo_video 3))
    (@process_video (demo fault_on_second no_key (replicate 3 demo_frame))
       "w.pt" "in.mp4" None (3 # 10) (7 # 10) init_world).2.
Proof.
  apply (@decoded_frames_intact
           (demo fault_on_second no_key (replicate 3 demo_frame))
           (demo_video 3)).
  reflexivity.
Defined.

(** X11: one tracker serves the whole run: when the run ends, its
    state is what the updates built from the initial state, applied to
    the detection sets of the frames in their order; only an update
    that was being made when the run was aborted is left aside. *)
Theorem tracker_state_threaded `{Collaborators}
    (wts src : string) (tgt : option string) (conf iou : Q) :
  tracker_threaded (process_video wts src tgt conf iou init_world).1
    (process_video wts src tgt conf iou init_world).2.
Proof. apply process_video_threaded. Qed.
